(** * goloadenv: loading a configuration structure from the environment

    A shallow embedding of [LoadEnv] and its helpers ([getTags],
    [tagSliceToKeyMap], [getField], [setField], [setIterableField],
    [parseArrayString], [RegisterEnvType]) together with the properties of
    the loader that its specification states.

    Go strings are byte sequences and are modelled as [string]; Go maps are
    [gmap]s, the process-wide set [tagNames] is a [gset string] that is
    threaded through every call.  The reflection library, [os.Getenv] and
    [fmt.Sscan] are not part of the package: the environment and the scanner
    are parameters of the development, reflection is modelled by a small
    universe of type descriptors and values. *)

From Stdlib Require Import String Ascii List ZArith Lia DecimalString.
From stdpp Require Import base option list gmap strings.

Import ListNotations.
Local Open Scope string_scope.
Local Open Scope list_scope.
Set Warnings "-register-all".

(** ** Strings *)

(** [%d] of a non-negative count. *)
Definition itoa (n : nat) : string := NilEmpty.string_of_uint (Nat.to_uint n).

(** [strings.FieldsFunc(s, f)]: the maximal runs of characters that do not
    satisfy [f]; empty runs are dropped. *)
Fixpoint fieldsAux (f : ascii → bool) (s : string) (cur : string) : list string :=
  match s with
  | EmptyString => if String.eqb cur "" then [] else [cur]
  | String c s' =>
      if f c
      then (if String.eqb cur "" then fieldsAux f s' "" else cur :: fieldsAux f s' "")
      else fieldsAux f s' (cur ++ String c "")
  end.

Definition FieldsFunc (s : string) (f : ascii → bool) : list string :=
  fieldsAux f s "".

(** [strings.Split(s, sep)] for a one-byte separator: never returns an empty
    list, [Split "" sep = [""]]. *)
Fixpoint splitAux (sep : ascii) (s : string) (cur : string) : list string :=
  match s with
  | EmptyString => [cur]
  | String c s' =>
      if Ascii.eqb c sep then cur :: splitAux sep s' ""
      else splitAux sep s' (cur ++ String c "")
  end.

Definition Split (s : string) (sep : ascii) : list string := splitAux sep s "".

(** [s[i:j]] for [i <= j <= len(s)]. *)
Definition slice (s : string) (i j : nat) : string := String.substring i (j - i) s.

(** ** Errors and outcomes *)

(** The error values the package builds.  [errorString] is [errors.New] (and
    the errors of the scanner and of converters); the two wrappers are the
    [fmt.Errorf("...%w", err)] calls of [LoadEnv]. *)
Inductive error : Type :=
| errorString (msg : string)
| EnvNotFoundError (Env : string)
| EnvParseError (value env : string) (err : error)
| duplicateTagError (item : string)
| overflowError (expected got : nat)
| tagsError (field : string) (err : error)
| nestedError (field : string) (err : error).

Fixpoint Error (e : error) : string :=
  match e with
  | errorString msg => msg
  | EnvNotFoundError env => "environment variable not found: " ++ env
  | EnvParseError value env err =>
      "error parsing '" ++ value ++ "' as environment variable " ++ env ++ ": " ++ Error err
  | duplicateTagError item => "duplicate tag: " ++ item
  | overflowError expected got =>
      "array size overflow, expected " ++ itoa expected ++ ", got " ++ itoa got
  | tagsError field err =>
      "error getting tags for field: '" ++ field ++ "': " ++ Error err
  | nestedError field err =>
      "error loading nested struct '" ++ field ++ "': " ++ Error err
  end.

(** Run-time panics that the package can raise. *)
Inductive panic : Type :=
| indexOutOfRange (index len : nat)      (* slice[index], index >= len(slice) *)
| reflectIndexOutOfRange (index : nat)   (* reflect.Value.Index *)
| reflectFieldOutOfRange (index : nat)   (* reflect.Type.Field *)
| reflectUnexported                      (* Interface() on an unexported field *)
| reflectNotAssignable.                  (* reflect.Value.Set *)

(** What a call does: it returns (an error or [nil]) or it panics. *)
Inductive outcome : Type :=
| Returns (err : option error)
| Panics (p : panic).

Abbreviation Nil := (Returns None).
Abbreviation Fails e := (Returns (Some e)).

(** ** Tag parsing *)

Abbreviation tagmap := (gmap string string).

(** [SplitTags] *)
Definition SplitTags (r : ascii) : bool :=
  (Ascii.eqb r ";" || Ascii.eqb r ":")%bool.

(** The result of [tagSliceToKeyMap]: the map, an error, or a panic. *)
Inductive tagsResult : Type :=
| TagsOk (m : tagmap)
| TagsErr (e : error)
| TagsPanic (p : panic).

(** The loop of [tagSliceToKeyMap], from position [index] on; [rest] is
    [slice[index:]] and [len] is [len(slice)].  The registry [tagNames] is
    threaded through. *)
Fixpoint tagLoop (len index : nat) (rest : list string) (m : tagmap)
    (tagNames : gset string) : tagsResult * gset string :=
  match rest with
  | [] => (TagsOk m, tagNames)
  | item :: rest' =>
      if Nat.eqb index 0 then
        let m := <["name" := item]> m in
        if decide (item ∈ tagNames) then (TagsErr (duplicateTagError item), tagNames)
        else tagLoop len (S index) rest' m ({[item]} ∪ tagNames)
      else if String.eqb item "default" then
        match m !! item with
        | Some _ => (TagsErr (duplicateTagError item), tagNames)
        | None =>
            match rest' with
            | [] => (TagsPanic (indexOutOfRange (index + 1) len), tagNames)
            | next :: rest'' =>
                tagLoop len (S (S index)) rest'' (<[item := next]> m) tagNames
            end
        end
      else tagLoop len (S index) rest' (<[item := ""]> m) tagNames
  end.

Definition tagSliceToKeyMap (slice : list string) (tagNames : gset string)
    : tagsResult * gset string :=
  tagLoop (length slice) 0 slice ∅ tagNames.

(** ** Types and values seen through reflection *)

(** The kinds the loader distinguishes.  [Basic] stands for every kind that
    has neither fields nor elements for the loader (booleans, numbers,
    strings, maps, pointer-typed fields, ...); [Pointer] is the kind of a
    pointer passed to [LoadEnv], [Invalid] that of the nil interface and of
    what a nil pointer points to. *)
Inductive basicKind : Type := Bool | Int | Str | Map | Ptr.

Inductive Kind : Type :=
| Invalid
| Basic (b : basicKind)
| Pointer
| Struct
| Slice
| Array.

#[global] Instance basicKind_eq_dec : EqDecision basicKind.
Proof. solve_decision. Defined.

#[global] Instance Kind_eq_dec : EqDecision Kind.
Proof. solve_decision. Defined.

(** A [reflect.Type].  [name] is the identity of the type (the key under
    which [envTypes] stores its converter); a struct type lists its fields in
    declaration order.  For a field, [Tag] is the value of the [env] key of
    the struct tag ([field.Tag.Get(tagName)]) and [Exported] says whether
    reflection may set it. *)
Inductive rtype : Type :=
| TBasic (name : string) (k : basicKind)
| TStruct (name : string) (fields : list StructField)
| TSlice (name : string) (elem : rtype)
| TArray (name : string) (len : nat) (elem : rtype)
with StructField : Type :=
| mkField (Name : string) (Tag : string) (Exported : bool) (Type_ : rtype).

Definition Name (f : StructField) : string := let '(mkField n _ _ _) := f in n.
Definition Tag (f : StructField) : string := let '(mkField _ t _ _) := f in t.
Definition Exported (f : StructField) : bool := let '(mkField _ _ e _) := f in e.
Definition Type_ (f : StructField) : rtype := let '(mkField _ _ _ t) := f in t.

Definition typeName (t : rtype) : string :=
  match t with
  | TBasic n _ | TStruct n _ | TSlice n _ | TArray n _ _ => n
  end.

Definition kindOf (t : rtype) : Kind :=
  match t with
  | TBasic _ b => Basic b
  | TStruct _ _ => Struct
  | TSlice _ _ => Slice
  | TArray _ _ _ => Array
  end.

(** Values.  A struct value holds one value per declared field, an array or
    slice value its elements. *)
Inductive value : Type :=
| VBool (b : bool)
| VInt (n : Z)
| VStr (s : string)
| VNil
| VStruct (fields : list value)
| VList (elems : list value).

(** [reflect.Zero] *)
Fixpoint zero (t : rtype) : value :=
  match t with
  | TBasic _ Bool => VBool false
  | TBasic _ Int => VInt 0
  | TBasic _ Str => VStr ""
  | TBasic _ _ => VNil
  | TStruct _ fields => VStruct (map (λ f, zero (Type_ f)) fields)
  | TSlice _ _ => VList []
  | TArray _ len elem => VList (replicate len (zero elem))
  end.

Definition elemsOf (v : value) : list value :=
  match v with VList l => l | _ => [] end.

Definition fieldsOf (v : value) : list value :=
  match v with VStruct l => l | _ => [] end.

(** An [interface{}] result of a converter: [None] is the nil interface,
    otherwise the name of the dynamic type and the value. *)
Definition iface : Type := option (string * value).

(** [EnvType]: a converter from the raw string. *)
Definition EnvType : Type := string → iface * option error.

(** [parseArrayString] *)
Definition parseArrayString (str : string) : list string + error :=
  let len := String.length str in
  if (Nat.ltb len 2
      || (negb (String.eqb (slice str 0 1) "[")
          && negb (String.eqb (slice str (len - 1) len) "]")))%bool
  then inr (errorString "invalid array format")
  else inl (Split (slice str 1 (len - 1)) ",").

(** The argument of [LoadEnv], an [interface{}]: the nil interface, a value
    that is not a pointer, or a pointer to a value of type [t] ([None] is the
    nil pointer). *)
Inductive config : Type :=
| NilInterface
| ByValue (t : rtype) (v : value)
| PointerTo (t : rtype) (target : option value).

(** [reflect.ValueOf(config).Kind()] *)
Definition configKind (c : config) : Kind :=
  match c with
  | NilInterface => Invalid
  | ByValue t _ => kindOf t
  | PointerTo _ _ => Pointer
  end.

(** [reflect.ValueOf(config).Elem().Kind()] of a pointer. *)
Definition elemKind (c : config) : Kind :=
  match c with
  | PointerTo t (Some _) => kindOf t
  | _ => Invalid
  end.

(** [k == k'] on kinds. *)
Definition isKind (k k' : Kind) : bool := bool_decide (k = k').

(** What the loader takes from its surroundings: [os.Getenv] (the empty
    string when the variable is not set), [fmt.Sscan(str, ptr)] for a pointer
    to a value of the given type that currently holds the given value (the
    value it leaves there and its error), and the registry [envTypes], keyed
    by the type. *)
Record World : Type := mkWorld {
  Getenv : string → string;
  Sscan : rtype → string → value → value * option error;
  envTypes : gmap string EnvType
}.

(** [RegisterEnvType]: [envTypes[T] = proto.UnmarshalEnv]. *)
Definition RegisterEnvType (T : string) (UnmarshalEnv : EnvType) (w : World) : World :=
  mkWorld (Getenv w) (Sscan w) (<[T := UnmarshalEnv]> (envTypes w)).

(** [tags[key]] of a Go map: the empty string when the key is missing. *)
Definition tagOf (tags : tagmap) (key : string) : string :=
  default "" (tags !! key).

(** [getTags] *)
Definition getTags (field : StructField) (tagNames : gset string)
    : tagsResult * gset string :=
  tagSliceToKeyMap (FieldsFunc (Tag field) SplitTags) tagNames.

Section Loader.

Variable w : World.

(** [getField] *)
Definition getField (tags : tagmap) : string * option error :=
  let str := Getenv w (tagOf tags "name") in
  if negb (String.eqb str "") then (str, None)
  else match tags !! "default" with
       | Some defaultValue => (defaultValue, None)
       | None =>
           match tags !! "optional" with
           | None => ("", Some (EnvNotFoundError (tagOf tags "name")))
           | Some _ => ("", None)
           end
       end.

(** [setField].  [canSet] is [field.CanSet()], [field] the value the field
    holds; the result is the value it holds afterwards.  [field.Set] panics
    unless the converted value has the type of the field. *)
Definition setField (t : rtype) (canSet : bool) (field : value) (str : string)
    (tags : tagmap) : value * outcome :=
  if negb canSet
  then (field, Fails (EnvParseError str (tagOf tags "name") (errorString "field cannot be set")))
  else match envTypes w !! typeName t with
       | Some unmarshaller =>
           match unmarshaller str with
           | (_, Some err) => (field, Fails (EnvParseError str (tagOf tags "name") err))
           | (Some (dyn, v), None) =>
               if String.eqb dyn (typeName t) then (v, Nil)
               else (field, Panics reflectNotAssignable)
           | (None, None) => (field, Panics reflectNotAssignable)
           end
       | None =>
           match Sscan w t str field with
           | (field', Some err) => (field', Fails (EnvParseError str (tagOf tags "name") err))
           | (field', None) => (field', Nil)
           end
       end.

(** The element loop of [setIterableField], from index [i] on:
    [field.Index(i)] panics when the container has no element [i]. *)
Fixpoint setElements (elem : rtype) (elems : list value) (i : nat)
    (strValues : list string) (tags : tagmap) : list value * outcome :=
  match strValues with
  | [] => (elems, Nil)
  | s :: strValues' =>
      match elems !! i with
      | None => (elems, Panics (reflectIndexOutOfRange i))
      | Some old =>
          let '(new, out) := setField elem true old s tags in
          let elems := <[i := new]> elems in
          match out with
          | Nil => setElements elem elems (S i) strValues' tags
          | _ => (elems, out)
          end
      end
  end.

(** [setIterableField] *)
Definition setIterableField (t : rtype) (canSet : bool) (field : value)
    (str : string) (tags : tagmap) : value * outcome :=
  if negb canSet
  then (field, Fails (EnvParseError str (tagOf tags "name") (errorString "field cannot be set")))
  else
    match t with
    | TSlice _ elem | TArray _ _ elem =>
        let maxLength := match t with TArray _ len _ => len | _ => 0 end in
        match parseArrayString str with
        | inr err => (field, Fails (EnvParseError str (tagOf tags "name") err))
        | inl strValues =>
            if (Nat.ltb 0 maxLength && Nat.ltb maxLength (length strValues))%bool
            then (field, Fails (EnvParseError str (tagOf tags "name")
                                  (overflowError maxLength (length strValues))))
            else
              let field :=
                match t with
                | TSlice _ _ => VList (replicate (length strValues) (zero elem))
                | _ => field
                end in
              let '(elems, out) := setElements elem (elemsOf field) 0 strValues tags in
              (VList elems, out)
        end
    | _ => (field, Fails (EnvParseError str (tagOf tags "name")
                            (errorString "field is not a slice or array")))
    end.

(** The end of the loop body of [LoadEnv]: a slice or an array goes to
    [setIterableField], every other field to [setField]. *)
Definition populate (f : StructField) (v : value) (str : string) (tags : tagmap)
    : value * outcome :=
  match kindOf (Type_ f) with
  | Slice | Array => setIterableField (Type_ f) (Exported f) v str tags
  | _ => setField (Type_ f) (Exported f) v str tags
  end.

Section Body.

(** The recursive call [LoadEnv(val.Field(i).Addr().Interface())]. *)
Variable recurse : rtype → value → gset string → value * gset string * outcome.

(** One iteration of the loop of [LoadEnv] on the field [f] holding [v]: the
    value the field holds afterwards, the registry, and [Nil] when the loop
    goes on to the next field. *)
Definition loadField (f : StructField) (v : value) (tagNames : gset string)
    : value * gset string * outcome :=
  match getTags f tagNames with
  | (TagsPanic p, tagNames) => (v, tagNames, Panics p)
  | (TagsErr err, tagNames) => (v, tagNames, Fails (tagsError (Name f) err))
  | (TagsOk tags, tagNames) =>
      match Type_ f with
      | TStruct _ inner =>
          if negb (Exported f) then (v, tagNames, Panics reflectUnexported)
          else
            let '(v, tagNames, out) := recurse (Type_ f) v tagNames in
            match out with
            | Fails err =>
                match inner with
                | f0 :: _ => (v, tagNames, Fails (nestedError (Name f0) err))
                | [] => (v, tagNames, Panics (reflectFieldOutOfRange 0))
                end
            | _ => (v, tagNames, out)
            end
      | _ =>
          if String.eqb (tagOf tags "name") "" then (v, tagNames, Nil)
          else
            match getField tags with
            | (_, Some err) => (v, tagNames, Fails err)
            | (str, None) =>
                if String.eqb str "" then (v, tagNames, Nil)
                else let '(v, out) := populate f v str tags in (v, tagNames, out)
            end
      end
  end.

(** The value of the next field in [vals], the values of the fields that
    remain (a struct value that is too short reads as zero values). *)
Definition fieldValue (f : StructField) (vals : list value) : value :=
  hd (zero (Type_ f)) vals.

(** The loop of [LoadEnv] over the fields that remain, with the values they
    hold. *)
Fixpoint loadFields (fields : list StructField) (vals : list value)
    (tagNames : gset string) : list value * gset string * outcome :=
  match fields with
  | [] => (vals, tagNames, Nil)
  | f :: fields' =>
      let '(v, tagNames, out) := loadField f (fieldValue f vals) tagNames in
      match out with
      | Nil =>
          let '(vals', tagNames, out) := loadFields fields' (tl vals) tagNames in
          (v :: vals', tagNames, out)
      | _ => (v :: tl vals, tagNames, out)
      end
  end.

End Body.

(** [LoadEnv] on a pointer to a value [v] of type [t]. *)
Fixpoint loadStruct (t : rtype) (v : value) (tagNames : gset string)
    : value * gset string * outcome :=
  match t with
  | TStruct _ fields =>
      let '(vals, tagNames, out) := loadFields loadStruct fields (fieldsOf v) tagNames in
      (VStruct vals, tagNames, out)
  | _ => (v, tagNames, Fails (errorString "config must be a pointer to a struct"))
  end.

(** [LoadEnv]: the argument afterwards, the registry afterwards, and what the
    call did. *)
Definition LoadEnv (c : config) (tagNames : gset string)
    : config * gset string * outcome :=
  if (negb (isKind (configKind c) Pointer) || negb (isKind (elemKind c) Struct))%bool
  then (c, tagNames, Fails (errorString "config must be a pointer to a struct"))
  else
    match c with
    | PointerTo t (Some v) =>
        let '(v, tagNames, out) := loadStruct t v tagNames in
        (PointerTo t (Some v), tagNames, out)
    | _ => (c, tagNames, Fails (errorString "config must be a pointer to a struct"))
    end.

End Loader.


(** ** The structures of the package's tests

    A scanner and an environment to run the loader on.  [scanExample]
    stands for [fmt.Sscan] in the examples only, on the inputs they use: it
    reads a string of decimal digits into an integer and a string as a whole
    into a string, and refuses every other type.  [fmt.Sscan] itself also
    reads signs, other bases, booleans and floating-point numbers, stops a
    string at white space, refuses the empty string and checks the range of
    an integer; every theorem below is stated for an arbitrary scanner. *)

Definition digitOf (c : ascii) : option Z :=
  let n := nat_of_ascii c in
  if (Nat.leb 48 n && Nat.leb n 57)%bool then Some (Z.of_nat (n - 48)) else None.

Fixpoint parseDigits (s : string) (acc : Z) : option Z :=
  match s with
  | EmptyString => Some acc
  | String c s' =>
      match digitOf c with
      | Some d => parseDigits s' (10 * acc + d)
      | None => None
      end
  end.

Definition scanExample (t : rtype) (str : string) (old : value) : value * option error :=
  match t with
  | TBasic _ Int =>
      match str, parseDigits str 0 with
      | String _ _, Some n => (VInt n, None)
      | _, _ => (old, Some (errorString "expected integer"))
      end
  | TBasic _ Str => (VStr str, None)
  | _ => (old, Some (errorString ("can't scan type: *" ++ typeName t)))
  end.

(** The environment as a map from the variables that are set. *)
Definition environ (vars : list (string * string)) : string → string :=
  λ key, default "" ((list_to_map vars : gmap string string) !! key).

Definition tString : rtype := TBasic "string" Str.
Definition tInt : rtype := TBasic "int" Int.
Definition CustomMapType : rtype := TBasic "goloadenv.CustomMapType" Map.

Definition EmbbededStruct : rtype :=
  TStruct "goloadenv.EmbbededStruct"
    [mkField "Host" "DB_HOST;default:localhost" true tString].

Definition EmbbededParseErrStruct : rtype :=
  TStruct "goloadenv.EmbbededParseErrStruct"
    [mkField "ParseErr" "PARSE_EMBEDDED_ERR;optional" true CustomMapType].

Definition TestConfig : rtype :=
  TStruct "goloadenv.TestConfig"
    [mkField "Host" "HOST" true tString;
     mkField "Port" "PORT" true tInt;
     mkField "Optional" "OPTIONAL;optional" true tString;
     mkField "Default" "DEFAULT;default:default" true tString;
     mkField "Struct" "" true EmbbededStruct;
     mkField "StructParseErr" "" true EmbbededParseErrStruct;
     mkField "ParseErr" "PARSE_ERR;optional" true CustomMapType].

(** [setTestEnv] *)
Definition testEnv : list (string * string) :=
  [("HOST", "localhost"); ("PORT", "8080"); ("DEFAULT", "default")].

(** The anonymous structures of the tests. *)
Definition threeHosts : rtype :=
  TStruct "struct"
    [mkField "Host" "HOST" true tString;
     mkField "Host2" "HOST" true tString;
     mkField "Host3" "HOST" true tString].

Definition intSliceStruct : rtype :=
  TStruct "struct" [mkField "IntSlice" "INT_SLICE" true (TSlice "[]int" tInt)].

Definition intArrayStruct (n : nat) : rtype :=
  TStruct "struct"
    [mkField "IntArray" "INT_ARRAY" true (TArray ("[" ++ itoa n ++ "]int") n tInt)].

(** [LoadEnv(&cfg)] for a zero [cfg] of type [t], with no name recorded yet
    and an empty table of converters.  (The package starts with a converter
    for [slog.Level] in [envTypes]; the structures loaded this way have no
    field of that type.) *)
Definition loadZero (vars : list (string * string)) (t : rtype)
    : config * gset string * outcome :=
  LoadEnv (mkWorld (environ vars) scanExample ∅) (PointerTo t (Some (zero t))) ∅.

Definition resultOf (r : config * gset string * outcome) : outcome := r.2.
Definition valueOf (r : config * gset string * outcome) : config := r.1.1.
Definition namesOf (r : config * gset string * outcome) : gset string := r.1.2.

Definition message (o : outcome) : option string :=
  match o with
  | Fails e => Some (Error e)
  | _ => None
  end.

(** A field whose type is a structure, as [time.Time] is: nothing in it
    carries a tag. *)
Definition timeTime : rtype :=
  TStruct "time.Time"
    [mkField "wall" "" false (TBasic "uint64" Int);
     mkField "ext" "" false (TBasic "int64" Int);
     mkField "loc" "" false (TBasic "*time.Location" Ptr)].

Definition eventStruct : rtype :=
  TStruct "struct" [mkField "Start" "START" true timeTime].

Definition twoHosts : rtype :=
  TStruct "struct"
    [mkField "Host" "HOST" true tString;
     mkField "Host2" "HOST" true tString].

(** A converter for [time.Time] that reads a number of seconds. *)
Definition unmarshalTime : EnvType :=
  λ str,
    match parseDigits str 0 with
    | Some n => (Some ("time.Time", VStruct [VInt n; VInt 0; VNil]), None)
    | None => (None, Some (errorString "expected seconds"))
    end.

(** A converter for a named integer type, as [UnmarshalEnvSlogLevel] is for
    [slog.Level]. *)
Definition slogLevel : rtype := TBasic "slog.Level" Int.

Definition unmarshalLevel : EnvType :=
  λ str,
    if String.eqb str "DEBUG" then (Some ("slog.Level", VInt (-4)), None)
    else if String.eqb str "INFO" then (Some ("slog.Level", VInt 0), None)
    else if String.eqb str "WARN" then (Some ("slog.Level", VInt 4), None)
    else if String.eqb str "ERROR" then (Some ("slog.Level", VInt 8), None)
    else (None, Some (errorString "slog: level string: unknown name")).

Definition levelStruct : rtype :=
  TStruct "struct" [mkField "LogLevel" "LOG_LEVEL" true slogLevel].

(** A directive with the option token [name]. *)
Definition nameOptionStruct : rtype :=
  TStruct "struct" [mkField "Host" "HOST;name" true tString].

(** A nested structure in a field that is not exported, before a field that
    is. *)
Definition unexportedNested : rtype :=
  TStruct "struct"
    [mkField "db" "" false EmbbededStruct;
     mkField "Host" "HOST" true tString].

(** A slice in a field that is not exported. *)
Definition unexportedSlice : rtype :=
  TStruct "struct" [mkField "ports" "PORTS" false (TSlice "[]int" tInt)].

(** A slice whose elements have the type of the field of [eventStruct]. *)
Definition timesStruct : rtype :=
  TStruct "struct" [mkField "Starts" "STARTS" true (TSlice "[]time.Time" timeTime)].

(** An array, a field with a converter and a nested structure. *)
Definition serviceStruct : rtype :=
  TStruct "struct"
    [mkField "IntArray" "INT_ARRAY" true (TArray "[5]int" 5 tInt);
     mkField "LogLevel" "LOG_LEVEL;default:INFO" true slogLevel;
     mkField "DB" "" true EmbbededStruct].

(** ** Notions used to state the properties *)

(** The first segment of the tag of a field: the name [tagSliceToKeyMap]
    checks against [tagNames] and records there. *)
Definition directiveName (f : StructField) : option string :=
  head (FieldsFunc (Tag f) SplitTags).

(** The tokens after the name are complete when every [default] keyword is
    followed by a value token (which is consumed with it). *)
Fixpoint optionsComplete (opts : list string) : bool :=
  match opts with
  | [] => true
  | item :: opts' =>
      if String.eqb item "default"
      then match opts' with
           | [] => false
           | _ :: opts'' => optionsComplete opts''
           end
      else optionsComplete opts'
  end.

(** The fields declared in a structure type, nested structures included, in
    the order in which [LoadEnv] reads their tags. *)
Fixpoint declaredFields (t : rtype) : list StructField :=
  match t with
  | TStruct _ fields => flat_map (λ f, f :: declaredFields (Type_ f)) fields
  | _ => []
  end.

(** [parses w fields vals tagNames seen g at]: the loop of [LoadEnv] started
    on [fields] with the registry [tagNames] comes to read the tag of the
    field [g] (of this structure or of a nested one), with the registry
    [at], after it has read the tags of the fields [seen]. *)
Inductive parses (w : World)
  : list StructField → list value → gset string → list StructField
    → StructField → gset string → Prop :=
| parses_here g fields vals tagNames :
    parses w (g :: fields) vals tagNames [] g tagNames
| parses_next f fields vals tagNames v' tagNames' seen g at_ :
    loadField w (loadStruct w) f (fieldValue f vals) tagNames = (v', tagNames', Nil) →
    parses w fields (tl vals) tagNames' seen g at_ →
    parses w (f :: fields) vals tagNames (f :: declaredFields (Type_ f) ++ seen) g at_
| parses_nested f fields vals tagNames tags tagNames' name inner seen g at_ :
    getTags f tagNames = (TagsOk tags, tagNames') →
    Type_ f = TStruct name inner →
    Exported f = true →
    parses w inner (fieldsOf (fieldValue f vals)) tagNames' seen g at_ →
    parses w (f :: fields) vals tagNames (f :: seen) g at_.

(** [e] is the duplicate-tag error for the name [N], wrapped with the name
    of the field whose tag was being read, under the wrappers of the nested
    loads it went through. *)
Fixpoint duplicateOf (N field : string) (e : error) : Prop :=
  match e with
  | tagsError f (duplicateTagError item) => f = field ∧ item = N
  | nestedError _ e' => duplicateOf N field e'
  | _ => False
  end.

(** The registry after one more call of [LoadEnv], whatever its argument,
    its surroundings and its outcome. *)
Definition afterLoad (tagNames tagNames' : gset string) : Prop :=
  ∃ w c, tagNames' = (LoadEnv w c tagNames).1.2.

(** The string [s] converts to [v] as a fresh element of type [elem]: the
    single-value conversion of [setField] on a zero value. *)
Definition converts (w : World) (elem : rtype) (tags : tagmap) (s : string)
    (v : value) : Prop :=
  setField w elem true (zero elem) s tags = (v, Nil).

(** The string [s] does not convert as a fresh element of type [elem]: the
    converter registered for the type returns the error [cause], or no
    converter is registered for it and the scanner returns [cause]; [v] is
    what the element holds afterwards. *)
Definition conversionFails (w : World) (elem : rtype) (s : string) (v : value)
    (cause : error) : Prop :=
  match envTypes w !! typeName elem with
  | Some unmarshaller => (unmarshaller s).2 = Some cause ∧ v = zero elem
  | None => Sscan w elem s (zero elem) = (v, Some cause)
  end.

(** ** Induction on types *)

Section rtype_induction.

Variable P : rtype → Prop.
Hypothesis Hbasic : ∀ name k, P (TBasic name k).
Hypothesis Hstruct : ∀ name fields,
  Forall (λ f, P (Type_ f)) fields → P (TStruct name fields).
Hypothesis Hslice : ∀ name elem, P elem → P (TSlice name elem).
Hypothesis Harray : ∀ name len elem, P elem → P (TArray name len elem).

Fixpoint rtype_nested_ind (t : rtype) : P t :=
  match t with
  | TBasic name k => Hbasic name k
  | TStruct name fields =>
      Hstruct name fields
        ((fix go (fs : list StructField) : Forall (λ f, P (Type_ f)) fs :=
            match fs with
            | [] => List.Forall_nil _
            | f :: fs' =>
                List.Forall_cons _ f fs'
                  (match f as f0 return P (Type_ f0) with
                   | mkField _ _ _ t' => rtype_nested_ind t'
                   end)
                  (go fs')
            end) fields)
  | TSlice name elem => Hslice name elem (rtype_nested_ind elem)
  | TArray name len elem => Harray name len elem (rtype_nested_ind elem)
  end.

End rtype_induction.

(** ** Notions used to state further properties of the tag parser *)

(** Every byte of the string satisfies [p]. *)
Fixpoint allChars (p : ascii → bool) (s : string) : bool :=
  match s with
  | EmptyString => true
  | String c s' => (p c && allChars p s')%bool
  end.

(** The string has no [;] and no [:]. *)
Definition separatorFree (s : string) : bool :=
  allChars (λ c, negb (SplitTags c)) s.

(** The tokens after the name that the parser reads as keywords: a value
    that follows a [default] keyword is consumed with it. *)
Fixpoint keywords (opts : list string) : list string :=
  match opts with
  | [] => []
  | item :: opts' =>
      if String.eqb item "default"
      then item :: match opts' with
                   | [] => []
                   | _ :: opts'' => keywords opts''
                   end
      else item :: keywords opts'
  end.

(** The token that follows the first [default] among the options. *)
Fixpoint defaultOf (opts : list string) : option string :=
  match opts with
  | [] => None
  | item :: opts' => if String.eqb item "default" then head opts' else defaultOf opts'
  end.

(** How many times the keyword [default] is read. *)
Definition defaultCount (opts : list string) : nat :=
  length (filter (λ k, k = "default") (keywords opts)).

(** The errors a load of a structure returns: a missing variable, a value
    that does not parse, a duplicate name or a duplicate [default] under the
    name of the field, and these under the wrapper of a nested load. *)
Fixpoint loadError (e : error) : Prop :=
  match e with
  | EnvNotFoundError env => env ≠ ""
  | EnvParseError _ env _ => env ≠ ""
  | tagsError _ (duplicateTagError _) => True
  | nestedError _ e' => loadError e'
  | _ => False
  end.

(** The names of the directives of a structure type, nested structures
    included, in the order in which [LoadEnv] reads the tags. *)
Definition directiveNames (t : rtype) : list string :=
  omap directiveName (declaredFields t).

(** ** Notions used to state further properties of collections and loads *)

(** [strings.Join] *)
Fixpoint Join (elems : list string) (sep : string) : string :=
  match elems with
  | [] => ""
  | [s] => s
  | s :: rest => s ++ sep ++ Join rest sep
  end.

(** The string has no comma. *)
Definition commaFree (s : string) : bool :=
  allChars (λ c, negb (Ascii.eqb c ",")) s.

(** Every array that the value holds in a field of the structure, nested
    structures included, has the number of elements of its type (a missing
    value reads as the zero value, as in [fieldValue]). *)
Fixpoint arraysFilled (t : rtype) (v : value) : Prop :=
  match t with
  | TStruct _ fields =>
      (fix go (fs : list StructField) (vals : list value) : Prop :=
         match fs with
         | [] => True
         | f :: fs' => arraysFilled (Type_ f) (fieldValue f vals) ∧ go fs' (tl vals)
         end) fields (fieldsOf v)
  | TArray _ len _ => length (elemsOf v) = len
  | _ => True
  end.

(** A structure type on which the loader cannot panic by itself: in every
    tag each [default] keyword has its value, every field whose type is a
    structure is exported, and no array field has length zero; nested
    structures included. *)
Fixpoint panicFree (t : rtype) : Prop :=
  match t with
  | TStruct _ fields =>
      (fix go (fs : list StructField) : Prop :=
         match fs with
         | [] => True
         | f :: fs' =>
             (optionsComplete (tl (FieldsFunc (Tag f) SplitTags)) = true
              ∧ match Type_ f with
                | TStruct _ _ => Exported f = true
                | TArray _ len _ => 0 < len
                | _ => True
                end
              ∧ panicFree (Type_ f))
             ∧ go fs'
         end) fields
  | _ => True
  end.

(** Every registered converter returns an error or a value of the type it
    is registered for. *)
Definition convertersTyped (w : World) : Prop :=
  ∀ T unmarshaller str,
    envTypes w !! T = Some unmarshaller →
    match unmarshaller str with
    | (_, Some _) => True
    | (Some (dyn, _), None) => dyn = T
    | (None, None) => False
    end.

(** The types whose converter a load of the structure may look up: those of
    the fields that are not structures and those of the elements of slices
    and arrays, nested structures included. *)
Fixpoint convertedTypes (t : rtype) : list string :=
  match t with
  | TStruct _ fields =>
      flat_map (λ f, match Type_ f with
                     | TStruct _ _ => convertedTypes (Type_ f)
                     | TSlice _ elem | TArray _ _ elem => [typeName elem]
                     | TBasic name _ => [name]
                     end) fields
  | _ => []
  end.

(** ** The formatter

    [FormatString] and its helpers.  The rendering of a value that is not a
    structure ([fmt.Sprint], the verb [%v]) and the embedding of a field are
    parameters. *)

Definition newline : string := String (ascii_of_nat 10) "".

(** [strings.Repeat] *)
Fixpoint Repeat (s : string) (count : nat) : string :=
  match count with
  | 0 => ""
  | S count' => s ++ Repeat s count'
  end.

(** The number of runes of a string in UTF-8: the bytes that do not
    continue a rune. *)
Definition continuesRune (c : ascii) : bool :=
  (Nat.leb 128 (nat_of_ascii c) && Nat.leb (nat_of_ascii c) 191)%bool.

Fixpoint runeCount (s : string) : nat :=
  match s with
  | EmptyString => 0
  | String c s' => (if continuesRune c then 0 else 1) + runeCount s'
  end.

(** The verb [%-*s]: the string, then spaces up to [width] runes. *)
Definition padRight (width : nat) (s : string) : string :=
  s ++ Repeat " " (width - runeCount s).

(** [getMaxFieldNameLength], on the fields of the structure. *)
Definition getMaxFieldNameLength (fields : list StructField) : nat :=
  fold_left (λ maxLen f,
               if Nat.ltb maxLen (String.length (Name f) + 1)
               then String.length (Name f) + 1 else maxLen)
    fields 0.

(** The panics of [reflect.Value.Interface]. *)
Inductive printPanic : Type :=
| interfaceOfZeroValue
| interfaceOfUnexported.

Section Formatter.

Variable Sprint : rtype → value → string.
Variable Anonymous : StructField → bool.

Section Lines.

(** The recursive call [formatStruct(fieldValue, indent+1)]. *)
Variable format : rtype → value → bool → nat → string + printPanic.

(** The loop of [formatStruct] over the fields that remain; [sticky] says
    that the structure was reached through an unexported field that is not
    embedded, which makes every field of it unreadable. *)
Fixpoint formatFields (maxLen : nat) (sticky : bool) (indent : nat)
    (fields : list StructField) (vals : list value) (lines : list string)
    : list string + printPanic :=
  match fields with
  | [] => inl lines
  | f :: fields' =>
      let indentation := Repeat "    " indent in
      match Type_ f with
      | TStruct _ _ =>
          match format (Type_ f) (fieldValue f vals)
                  (sticky || (negb (Exported f) && negb (Anonymous f)))%bool
                  (indent + 1) with
          | inl inner =>
              formatFields maxLen sticky indent fields' (tl vals)
                (lines ++ [(indentation ++ padRight maxLen (Name f ++ ":") ++ " {"
                            ++ newline ++ inner ++ newline ++ indentation ++ "}")%string])
          | inr p => inr p
          end
      | _ =>
          if (sticky || negb (Exported f))%bool then inr interfaceOfUnexported
          else
            formatFields maxLen sticky indent fields' (tl vals)
              (lines ++ [(indentation ++ padRight maxLen (Name f ++ ":") ++ " "
                          ++ Sprint (Type_ f) (fieldValue f vals))%string])
      end
  end.

End Lines.

(** [formatStruct] on a value that is not a pointer. *)
Fixpoint formatStruct (t : rtype) (v : value) (sticky : bool) (indent : nat)
    : string + printPanic :=
  match t with
  | TStruct _ fields =>
      match formatFields formatStruct (getMaxFieldNameLength fields) sticky indent
              fields (fieldsOf v) [] with
      | inl lines => inl (Join lines newline)
      | inr p => inr p
      end
  | _ => if sticky then inr interfaceOfUnexported else inl (Sprint t v)
  end.

(** What [formatStruct] can render: every field that is not a structure is
    exported and is not reached through an unexported field that is not
    embedded. *)
Fixpoint printable (sticky : bool) (t : rtype) : bool :=
  match t with
  | TStruct _ fields =>
      forallb (λ f, match Type_ f with
                    | TStruct _ _ =>
                        printable (sticky || (negb (Exported f) && negb (Anonymous f)))
                          (Type_ f)
                    | _ => negb (sticky || negb (Exported f))
                    end) fields
  | _ => negb sticky
  end.

(** [FormatString]: a pointer is followed once; the nil interface and the
    nil pointer have no value to render. *)
Definition FormatString (c : config) : string + printPanic :=
  match match c with
        | NilInterface | PointerTo _ None => inr interfaceOfZeroValue
        | ByValue t v | PointerTo t (Some v) => formatStruct t v false 1
        end with
  | inl body => inl ("{" ++ newline ++ body ++ newline ++ "}")%string
  | inr p => inr p
  end.

End Formatter.

(** ** Strings and tokens *)

Local Open Scope nat_scope.

Lemma fieldsAux_nonempty f s cur :
  Forall (λ token, token ≠ "") (fieldsAux f s cur).
Proof.
  revert cur. induction s as [|c s IH]; intros cur; simpl.
  - destruct (String.eqb_spec cur ""); auto.
  - destruct (f c).
    + destruct (String.eqb_spec cur ""); auto.
    + apply IH.
Qed.

Lemma FieldsFunc_nonempty s f : Forall (λ token, token ≠ "") (FieldsFunc s f).
Proof. apply fieldsAux_nonempty. Qed.

Lemma substring_all s t : String.substring 0 (String.length s) (s ++ t) = s.
Proof. induction s as [|c s IH]; simpl; [by destruct t | by rewrite IH]. Qed.

Lemma length_append s t : String.length (s ++ t) = String.length s + String.length t.
Proof. induction s as [|c s IH]; simpl; [done | by rewrite IH]. Qed.

Lemma substring_last s c :
  String.substring (String.length s) 1 (s ++ String c "") = String c "".
Proof. induction s as [|c' s IH]; simpl; [done | exact IH]. Qed.

Lemma append_assoc (s t u : string) : ((s ++ t) ++ u = s ++ t ++ u)%string.
Proof.
  induction s as [|c s IH]; [done|].
  change (String c ((s ++ t) ++ u) = String c (s ++ t ++ u))%string. by f_equal.
Qed.

Lemma substring_none s : String.substring 0 0 s = "".
Proof. by destruct s. Qed.

(** A string between brackets parses to the split of what is between them. *)
Lemma parseArrayString_bracketed body :
  parseArrayString ("[" ++ body ++ "]") = inl (Split body ",").
Proof.
  unfold parseArrayString, slice.
  change ("[" ++ body ++ "]")%string with (String "[" (body ++ "]")).
  cbn [String.length]. rewrite length_append. cbn [String.length].
  replace (S (String.length body + 1) - 1 - 1) with (String.length body) by lia.
  replace (S (String.length body + 1) - 1) with (S (String.length body)) by lia.
  replace (Nat.ltb (S (String.length body + 1)) 2) with false
    by (symmetry; apply Nat.ltb_ge; lia).
  cbn [String.substring Nat.sub]. rewrite substring_none, substring_all.
  reflexivity.
Qed.

(** ** The tag parser *)

(** After the name, the parser leaves the registry alone. *)
Lemma tagLoop_options_registry len index rest m tagNames :
  index ≠ 0 → (tagLoop len index rest m tagNames).2 = tagNames.
Proof.
  revert index m.
  induction rest as [rest IH] using (induction_ltof1 _ (@length string)).
  unfold ltof in IH. intros index m Hindex.
  destruct rest as [|item rest]; [done|].
  destruct index as [|index]; [done|]. cbn [tagLoop Nat.eqb].
  destruct (String.eqb item "default").
  - destruct (m !! item); [done|].
    destruct rest as [|next rest]; [done|].
    apply IH; [simpl; lia | done].
  - apply IH; [simpl; lia | done].
Qed.

Lemma tagSliceToKeyMap_nil tagNames :
  tagSliceToKeyMap [] tagNames = (TagsOk ∅, tagNames).
Proof. reflexivity. Qed.

(** A name that is in the registry is refused, and the registry is left as
    it is. *)
Lemma tagSliceToKeyMap_duplicate name opts tagNames :
  name ∈ tagNames →
  tagSliceToKeyMap (name :: opts) tagNames = (TagsErr (duplicateTagError name), tagNames).
Proof.
  intros Hin. unfold tagSliceToKeyMap. cbn [tagLoop Nat.eqb].
  by destruct (decide (name ∈ tagNames)).
Qed.

(** A name that is not in the registry is recorded, whatever the parser
    does with the options. *)
Lemma tagSliceToKeyMap_fresh name opts tagNames :
  name ∉ tagNames →
  (tagSliceToKeyMap (name :: opts) tagNames).2 = {[name]} ∪ tagNames.
Proof.
  intros Hnotin. unfold tagSliceToKeyMap. cbn [tagLoop Nat.eqb].
  destruct (decide (name ∈ tagNames)); [done|].
  by apply tagLoop_options_registry.
Qed.

Lemma tagSliceToKeyMap_registry slice tagNames :
  tagNames ⊆ (tagSliceToKeyMap slice tagNames).2.
Proof.
  destruct slice as [|name opts]; [done|].
  destruct (decide (name ∈ tagNames)) as [Hin|Hnotin].
  - by rewrite tagSliceToKeyMap_duplicate.
  - rewrite tagSliceToKeyMap_fresh by done. set_solver.
Qed.

(** When the parser returns a map, the name is in the registry. *)
Lemma tagSliceToKeyMap_records name opts tagNames tags tagNames' :
  tagSliceToKeyMap (name :: opts) tagNames = (TagsOk tags, tagNames') →
  name ∈ tagNames'.
Proof.
  intros Heq. destruct (decide (name ∈ tagNames)) as [Hin|Hnotin].
  - by rewrite tagSliceToKeyMap_duplicate in Heq.
  - pose proof (tagSliceToKeyMap_fresh name opts tagNames Hnotin) as Hreg.
    rewrite Heq in Hreg. simpl in Hreg. set_solver.
Qed.

Lemma last_tail {A} (x : A) (l : list A) (y : A) :
  last l = Some y → last (x :: l) = Some y.
Proof. destruct l; [done | by rewrite last_cons_cons]. Qed.

(** The parser panics only on the access [slice[index+1]] behind a final
    [default] keyword: the index is the length of the slice. *)
Lemma tagLoop_panic len index rest m tagNames p :
  (tagLoop len index rest m tagNames).1 = TagsPanic p →
  p = indexOutOfRange (index + length rest) len ∧ last rest = Some "default".
Proof.
  revert index m tagNames.
  induction rest as [rest IH] using (induction_ltof1 _ (@length string)).
  unfold ltof in IH. intros index m tagNames.
  destruct rest as [|item rest]; [done|]. cbn [tagLoop].
  destruct (Nat.eqb index 0).
  { destruct (decide (item ∈ tagNames)); [done|]. intros Hp.
    apply IH in Hp as [-> Hlast]; [|simpl; lia].
    split; [f_equal; simpl; lia|].
    by apply last_tail. }
  destruct (String.eqb_spec item "default") as [->|Hne].
  - destruct (m !! "default"); [done|].
    destruct rest as [|next rest].
    + intros [= <-]. split; [f_equal; simpl; lia | done].
    + intros Hp. apply IH in Hp as [-> Hlast]; [|simpl; lia].
      split; [f_equal; simpl; lia|].
      by do 2 apply last_tail.
  - intros Hp. apply IH in Hp as [-> Hlast]; [|simpl; lia].
    split; [f_equal; simpl; lia|].
    by apply last_tail.
Qed.

(** With complete options the parser does not panic. *)
Lemma tagLoop_complete len index rest m tagNames p :
  index ≠ 0 → optionsComplete rest = true →
  (tagLoop len index rest m tagNames).1 ≠ TagsPanic p.
Proof.
  revert index m tagNames.
  induction rest as [rest IH] using (induction_ltof1 _ (@length string)).
  unfold ltof in IH. intros index m tagNames Hindex Hcomplete.
  destruct rest as [|item rest]; [done|].
  destruct index as [|index]; [done|]. cbn [tagLoop Nat.eqb].
  simpl in Hcomplete.
  destruct (String.eqb item "default").
  - destruct (m !! item); [done|].
    destruct rest as [|next rest]; [done|].
    apply IH; [simpl; lia | done | done].
  - apply IH; [simpl; lia | done | done].
Qed.

(** The value the parser stores for [default] is a token of the tag. *)
Lemma tagLoop_default len index rest m tagNames tags tagNames' d :
  index ≠ 0 →
  (∀ d', m !! "default" = Some d' → d' ∈ rest ∨ d' ≠ "") →
  Forall (λ token, token ≠ "") rest →
  tagLoop len index rest m tagNames = (TagsOk tags, tagNames') →
  tags !! "default" = Some d → d ≠ "".
Proof.
  revert index m tagNames.
  induction rest as [rest IH] using (induction_ltof1 _ (@length string)).
  unfold ltof in IH. intros index m tagNames Hindex Hm Hrest.
  destruct rest as [|item rest].
  { intros [= <- <-] Hd. destruct (Hm d Hd) as [Hin|]; [|done].
    by apply elem_of_nil in Hin. }
  destruct index as [|index]; [done|]. cbn [tagLoop Nat.eqb].
  apply Forall_cons in Hrest as [Hitem Hrest].
  destruct (String.eqb_spec item "default") as [->|Hne].
  - destruct (m !! "default") eqn:Hlook; [done|].
    destruct rest as [|next rest]; [done|].
    apply Forall_cons in Hrest as [Hnext Hrest].
    apply IH; [simpl; lia | done | | done].
    intros d'. rewrite lookup_insert_eq. intros [= <-]. by right.
  - apply IH; [simpl; lia | done | | done].
    intros d'. rewrite lookup_insert_ne by done. intros Hd'.
    destruct (Hm d' Hd') as [Hin|]; [|by right].
    apply elem_of_cons in Hin as [->|Hin]; [by right | by left].
Qed.

Lemma tagSliceToKeyMap_default slice tagNames tags tagNames' d :
  Forall (λ token, token ≠ "") slice →
  tagSliceToKeyMap slice tagNames = (TagsOk tags, tagNames') →
  tags !! "default" = Some d → d ≠ "".
Proof.
  intros Hslice. destruct slice as [|name opts].
  { intros [= <- <-]. by rewrite lookup_empty. }
  unfold tagSliceToKeyMap. cbn [tagLoop Nat.eqb].
  destruct (decide (name ∈ tagNames)); [done|].
  apply Forall_cons in Hslice as [_ Hopts].
  apply tagLoop_default; [done | | done].
  intros d'. rewrite lookup_insert_ne by done. by rewrite lookup_empty.
Qed.

(** [getTags] in terms of the name of the directive. *)
Lemma getTags_registry f tagNames : tagNames ⊆ (getTags f tagNames).2.
Proof. apply tagSliceToKeyMap_registry. Qed.

Lemma getTags_duplicate f N tagNames :
  directiveName f = Some N → N ∈ tagNames →
  getTags f tagNames = (TagsErr (duplicateTagError N), tagNames).
Proof.
  unfold directiveName, getTags. intros Hname Hin.
  destruct (FieldsFunc (Tag f) SplitTags) as [|name opts]; [done|].
  injection Hname as ->. by apply tagSliceToKeyMap_duplicate.
Qed.

Lemma getTags_records f N tagNames tags tagNames' :
  directiveName f = Some N →
  getTags f tagNames = (TagsOk tags, tagNames') → N ∈ tagNames'.
Proof.
  unfold directiveName, getTags. intros Hname.
  destruct (FieldsFunc (Tag f) SplitTags) as [|name opts]; [done|].
  injection Hname as ->. apply tagSliceToKeyMap_records.
Qed.

Lemma getTags_default f tagNames tags tagNames' d :
  getTags f tagNames = (TagsOk tags, tagNames') →
  tags !! "default" = Some d → d ≠ "".
Proof. apply tagSliceToKeyMap_default, FieldsFunc_nonempty. Qed.

(** C10: on the tag [NAME;default], whose last token is the keyword
    [default], the parser reads [slice[index+1]] at position 2 of a slice of
    length 2 (it panics, it returns no error); whenever it panics it is on
    that access, one past the end, behind a final [default]; and when every
    [default] keyword is followed by a value token it does not panic. *)
Theorem default_value_access :
  (tagSliceToKeyMap (FieldsFunc "NAME;default" SplitTags) ∅).1
    = TagsPanic (indexOutOfRange 2 2)
  ∧ (∀ slice tagNames p,
       (tagSliceToKeyMap slice tagNames).1 = TagsPanic p →
       p = indexOutOfRange (length slice) (length slice)
       ∧ last slice = Some "default")
  ∧ (∀ name opts tagNames p,
       optionsComplete opts = true →
       (tagSliceToKeyMap (name :: opts) tagNames).1 ≠ TagsPanic p).
Proof.
  split; [reflexivity|]. split.
  - intros slice tagNames p Hp. by apply tagLoop_panic in Hp.
  - intros name opts tagNames p Hcomplete. unfold tagSliceToKeyMap.
    cbn [tagLoop Nat.eqb]. destruct (decide (name ∈ tagNames)); [done|].
    by apply tagLoop_complete.
Qed.

Lemma default_value_access_witness :
  optionsComplete ["default"; "localhost"] = true
  ∧ (tagSliceToKeyMap ["DB_HOST"; "default"; "localhost"] ∅).1
      ≠ TagsPanic (indexOutOfRange 3 3).
Proof.
  split; [reflexivity|].
  apply (proj2 (proj2 default_value_access)). reflexivity.
Defined.

(** ** Single values and collections *)

Section LoaderFacts.

Variable w : World.

(** An error of [setField] carries the string it was given and the name of
    the directive. *)
Lemma setField_error t canSet field str tags field' e :
  setField w t canSet field str tags = (field', Fails e) →
  ∃ cause, e = EnvParseError str (tagOf tags "name") cause.
Proof.
  unfold setField. destruct canSet; simpl; [|intros [= <- <-]; eauto].
  destruct (envTypes w !! typeName t) as [unmarshaller|].
  - destruct (unmarshaller str) as [[[dyn v]|] [err|]];
      try (intros [= <- <-]; eauto); try done.
    destruct (String.eqb dyn (typeName t)); done.
  - destruct (Sscan w t str field) as [field'' [err|]];
      [intros [= <- <-]; eauto | done].
Qed.

(** The element loop when every element converts: the elements from the
    index on are replaced in order. *)
Lemma setElements_converted elem tags strValues olds vals :
  Forall3 (λ s old v, setField w elem true old s tags = (v, Nil)) strValues olds vals →
  ∀ front rest,
    setElements w elem (front ++ olds ++ rest) (length front) strValues tags
    = (front ++ vals ++ rest, Nil).
Proof.
  induction 1 as [|s old v strValues olds vals Hset _ IH]; intros front rest; [done|].
  cbn [setElements].
  rewrite lookup_app_r, Nat.sub_diag by lia. cbn [lookup list_lookup app].
  rewrite Hset.
  replace (<[length front := v]> (front ++ old :: olds ++ rest))
    with ((front ++ [v]) ++ olds ++ rest).
  2:{ rewrite insert_app_r_alt, Nat.sub_diag by lia. by rewrite <- app_assoc. }
  replace (S (length front)) with (length (front ++ [v])) by (rewrite length_app; simpl; lia).
  rewrite IH. by rewrite <- app_assoc.
Qed.

(** The element loop stops at the first element that does not convert. *)
Lemma setElements_stops elem tags pre olds vals bad old vbad out post :
  Forall3 (λ s old v, setField w elem true old s tags = (v, Nil)) pre olds vals →
  setField w elem true old bad tags = (vbad, out) → out ≠ Nil →
  ∀ front rest,
    setElements w elem (front ++ olds ++ old :: rest) (length front)
      (pre ++ bad :: post) tags
    = (front ++ vals ++ vbad :: rest, out).
Proof.
  intros Hpre Hbad Hout.
  induction Hpre as [|s old' v pre olds vals Hset _ IH]; intros front rest.
  - cbn [setElements app].
    rewrite lookup_app_r, Nat.sub_diag by lia. cbn [lookup list_lookup].
    rewrite Hbad, insert_app_r_alt, Nat.sub_diag by lia. cbn [insert list_insert].
    by destruct out as [[e|]|p].
  - cbn [setElements app].
    rewrite lookup_app_r, Nat.sub_diag by lia. cbn [lookup list_lookup app].
    rewrite Hset.
    replace (<[length front := v]> (front ++ old' :: olds ++ old :: rest))
      with ((front ++ [v]) ++ olds ++ old :: rest).
    2:{ rewrite insert_app_r_alt, Nat.sub_diag by lia. by rewrite <- app_assoc. }
    replace (S (length front)) with (length (front ++ [v])) by (rewrite length_app; simpl; lia).
    rewrite IH. by rewrite <- app_assoc.
Qed.

(** The element loop on a container with no element at the index. *)
Lemma setElements_out_of_range elem tags elems i s strValues :
  (length elems ≤ i)%nat →
  setElements w elem elems i (s :: strValues) tags
  = (elems, Panics (reflectIndexOutOfRange i)).
Proof. intros Hi. cbn [setElements]. by rewrite lookup_ge_None_2. Qed.

(** Conversions from the zero value, as in a slice that was just made. *)
Lemma Forall3_replicate {A B C} (P : A → B → C → Prop) (z : B) l k :
  Forall2 (λ a c, P a z c) l k → Forall3 P l (replicate (length l) z) k.
Proof. induction 1; simpl; constructor; auto. Qed.

(** An element that does not convert: [setField] returns the error of the
    converter or of the scanner under the string and the name. *)
Lemma setField_conversionFails elem s v cause tags :
  conversionFails w elem s v cause →
  setField w elem true (zero elem) s tags
  = (v, Fails (EnvParseError s (tagOf tags "name") cause)).
Proof.
  unfold conversionFails, setField. cbn [negb].
  destruct (envTypes w !! typeName elem) as [unmarshaller|].
  - destruct (unmarshaller s) as [[[dyn x]|] [err|]]; cbn [snd];
      by intros [[= ->] ->].
  - by intros ->.
Qed.

(** C7 (amended): for a slice field that may be set and an input between
    brackets, the slice is made anew with one zero element per parsed
    string, whatever it held, and the strings are converted in order: when
    all of them convert, the slice holds exactly the converted values; the
    first string that does not convert aborts the call with an
    [EnvParseError] that carries that string, the name of the directive and
    the error of the converter registered for the type of the elements, or
    of the scanner when there is none, the slice keeping its length.  For a
    field that may not be set nothing is made: the call returns the
    [EnvParseError] of the whole input with the cause "field cannot be
    set". *)
Theorem slice_is_made_and_filled name elem canSet old body tags :
  (canSet = false →
     setIterableField w (TSlice name elem) canSet old ("[" ++ body ++ "]") tags
     = (old, Fails (EnvParseError ("[" ++ body ++ "]") (tagOf tags "name")
                      (errorString "field cannot be set")))
     ∧ Error (EnvParseError ("[" ++ body ++ "]") (tagOf tags "name")
                (errorString "field cannot be set"))
       = ("error parsing '" ++ ("[" ++ body ++ "]") ++ "' as environment variable "
          ++ tagOf tags "name" ++ ": field cannot be set")%string)
  ∧ (canSet = true →
     ∀ vals,
       Forall2 (converts w elem tags) (Split body ",") vals →
       setIterableField w (TSlice name elem) canSet old ("[" ++ body ++ "]") tags
         = (VList vals, Nil)
       ∧ length vals = length (Split body ","))
  ∧ (canSet = true →
     ∀ pre bad post vals vbad cause,
       Split body "," = pre ++ bad :: post →
       Forall2 (converts w elem tags) pre vals →
       conversionFails w elem bad vbad cause →
       setIterableField w (TSlice name elem) canSet old ("[" ++ body ++ "]") tags
         = (VList (vals ++ vbad :: replicate (length post) (zero elem)),
            Fails (EnvParseError bad (tagOf tags "name") cause))
       ∧ length (vals ++ vbad :: replicate (length post) (zero elem))
           = length (Split body ",")).
Proof.
  split; [|split].
  - by intros ->.
  - intros -> vals Hvals. split; [|symmetry; by eapply Forall2_length].
    unfold setIterableField. cbn [negb]. rewrite parseArrayString_bracketed.
    cbn [Nat.ltb Nat.leb andb elemsOf].
    apply (Forall3_replicate
             (λ s old v, setField w elem true old s tags = (v, Nil)) (zero elem))
      in Hvals.
    pose proof (setElements_converted _ _ _ _ _ Hvals [] []) as Hloop.
    cbn [app length] in Hloop. rewrite !app_nil_r in Hloop. by rewrite Hloop.
  - intros -> pre bad post vals vbad cause Hsplit Hpre Hbad%(setField_conversionFails _ _ _ _ tags).
    pose proof (Forall2_length _ _ _ Hpre) as Hlen.
    split.
    + unfold setIterableField. cbn [negb]. rewrite parseArrayString_bracketed.
      cbn [Nat.ltb Nat.leb andb elemsOf]. rewrite Hsplit.
      rewrite length_app. cbn [length]. rewrite replicate_add. cbn [replicate].
      apply (Forall3_replicate
               (λ s old v, setField w elem true old s tags = (v, Nil)) (zero elem))
        in Hpre.
      pose proof (setElements_stops _ _ _ _ _ _ _ _ _ post Hpre Hbad
                    ltac:(done) [] (replicate (length post) (zero elem))) as Hloop.
      cbn [app length] in Hloop. by rewrite Hloop.
    + rewrite Hsplit, !length_app. cbn [length]. rewrite length_replicate. lia.
Qed.

(** An array of [len >= 1] elements: at most [len] strings fill its first
    elements in order and leave the others as they are; more than [len]
    strings are refused before any element is written. *)
Lemma array_is_filled name len elem olds body tags :
  length olds = len → 0 < len →
  (∀ vals,
     length (Split body ",") ≤ len →
     Forall3 (λ s old v, setField w elem true old s tags = (v, Nil))
       (Split body ",") (take (length (Split body ",")) olds) vals →
     setIterableField w (TArray name len elem) true (VList olds) ("[" ++ body ++ "]") tags
       = (VList (vals ++ drop (length (Split body ",")) olds), Nil))
  ∧ (len < length (Split body ",") →
     setIterableField w (TArray name len elem) true (VList olds) ("[" ++ body ++ "]") tags
       = (VList olds,
          Fails (EnvParseError ("[" ++ body ++ "]") (tagOf tags "name")
                   (overflowError len (length (Split body ","))))))
  ∧ Error (overflowError len (length (Split body ",")))
      = ("array size overflow, expected " ++ itoa len ++ ", got "
         ++ itoa (length (Split body ",")))%string.
Proof.
  intros Holds Hlen. split; [|split; [|done]].
  - intros vals Hcount Hvals.
    unfold setIterableField. cbn [negb]. rewrite parseArrayString_bracketed.
    replace (Nat.ltb len (length (Split body ","))) with false
      by (symmetry; apply Nat.ltb_ge; lia).
    rewrite andb_false_r. cbn [elemsOf].
    pose proof (setElements_converted _ _ _ _ _ Hvals []
                  (drop (length (Split body ",")) olds)) as Hloop.
    cbn [app length] in Hloop. rewrite take_drop in Hloop. by rewrite Hloop.
  - intros Hcount.
    unfold setIterableField. cbn [negb]. rewrite parseArrayString_bracketed.
    replace (Nat.ltb 0 len) with true by (symmetry; apply Nat.ltb_lt; lia).
    replace (Nat.ltb len (length (Split body ","))) with true
      by (symmetry; apply Nat.ltb_lt; lia).
    done.
Qed.

(** ** The loop of [LoadEnv] *)

(** [LoadEnv] on a pointer to a structure is the loop over its fields. *)
Lemma LoadEnv_struct name fields v tagNames :
  LoadEnv w (PointerTo (TStruct name fields) (Some v)) tagNames
  = let r := loadFields w (loadStruct w) fields (fieldsOf v) tagNames in
    (PointerTo (TStruct name fields) (Some (VStruct r.1.1)), r.1.2, r.2).
Proof.
  unfold LoadEnv. cbn.
  by destruct (loadFields w (loadStruct w) fields (fieldsOf v) tagNames) as [[vals tn] out].
Qed.

(** The loop on a field that is done with: it goes on with the next one. *)
Lemma loadFields_next recurse f fields v vals tagNames v' tagNames' :
  loadField w recurse f v tagNames = (v', tagNames', Nil) →
  loadFields w recurse (f :: fields) (v :: vals) tagNames
  = let r := loadFields w recurse fields vals tagNames' in (v' :: r.1.1, r.1.2, r.2).
Proof.
  intros Hf. cbn [loadFields fieldValue hd tl]. rewrite Hf.
  by destruct (loadFields w recurse fields vals tagNames') as [[vals' tn] out].
Qed.

(** The loop on a field that fails or panics: it stops there. *)
Lemma loadFields_stops recurse f fields v vals tagNames v' tagNames' out :
  loadField w recurse f v tagNames = (v', tagNames', out) → out ≠ Nil →
  loadFields w recurse (f :: fields) (v :: vals) tagNames = (v' :: vals, tagNames', out).
Proof.
  intros Hf Hout. cbn [loadFields fieldValue hd tl]. rewrite Hf.
  by destruct out as [[e|]|p].
Qed.

(** A field that is not a structure, once its tag is parsed. *)
Lemma loadField_plain recurse f v tagNames tags tagNames' :
  getTags f tagNames = (TagsOk tags, tagNames') →
  kindOf (Type_ f) ≠ Struct →
  loadField w recurse f v tagNames
  = if String.eqb (tagOf tags "name") "" then (v, tagNames', Nil)
    else match getField w tags with
         | (_, Some err) => (v, tagNames', Fails err)
         | (str, None) =>
             if String.eqb str "" then (v, tagNames', Nil)
             else ((populate w f v str tags).1, tagNames', (populate w f v str tags).2)
         end.
Proof.
  intros Htags Hkind. unfold loadField. rewrite Htags.
  destruct (Type_ f) eqn:Ht; try done;
    destruct (String.eqb (tagOf tags "name") ""); try done;
    destruct (getField w tags) as [str [err|]]; try done;
    destruct (String.eqb str ""); try done;
    by destruct (populate w f v str tags).
Qed.

(** X18: for a field that is not a structure, whose tag has parsed to a map
    with a non-empty name, the loop body resolves the string as follows.  A
    non-empty value of the environment variable is the string that is
    converted; otherwise the default of the directive is; otherwise, when the
    directive says [optional], the field keeps its value and the loop goes
    on, so that a structure with this field alone loads without error;
    otherwise the load stops with [EnvNotFoundError], whose message is
    "environment variable not found: " followed by the name. *)
Theorem field_value_resolution f v tagNames tags tagNames' name sname fields vals :
  getTags f tagNames = (TagsOk tags, tagNames') →
  kindOf (Type_ f) ≠ Struct →
  tagOf tags "name" = name → name ≠ ""%string →
  (Getenv w name ≠ ""%string →
     loadField w (loadStruct w) f v tagNames
     = ((populate w f v (Getenv w name) tags).1, tagNames',
        (populate w f v (Getenv w name) tags).2))
  ∧ (∀ d, Getenv w name = ""%string → tags !! "default"%string = Some d →
     loadField w (loadStruct w) f v tagNames
     = ((populate w f v d tags).1, tagNames', (populate w f v d tags).2))
  ∧ (Getenv w name = ""%string → tags !! "default"%string = None →
     is_Some (tags !! "optional"%string) →
     loadFields w (loadStruct w) (f :: fields) (v :: vals) tagNames
     = (let r := loadFields w (loadStruct w) fields vals tagNames' in
        (v :: r.1.1, r.1.2, r.2))
     ∧ LoadEnv w (PointerTo (TStruct sname [f]) (Some (VStruct [v]))) tagNames
       = (PointerTo (TStruct sname [f]) (Some (VStruct [v])), tagNames', Nil))
  ∧ (Getenv w name = ""%string → tags !! "default"%string = None →
     tags !! "optional"%string = None →
     loadFields w (loadStruct w) (f :: fields) (v :: vals) tagNames
     = (v :: vals, tagNames', Fails (EnvNotFoundError name))
     ∧ LoadEnv w (PointerTo (TStruct sname (f :: fields)) (Some (VStruct (v :: vals))))
         tagNames
       = (PointerTo (TStruct sname (f :: fields)) (Some (VStruct (v :: vals))),
          tagNames', Fails (EnvNotFoundError name))
     ∧ Error (EnvNotFoundError name)
       = ("environment variable not found: " ++ name)%string).
Proof.
  intros Htags Hkind Hname Hnonempty.
  pose proof (loadField_plain (loadStruct w) f v _ _ _ Htags Hkind) as Hbody.
  rewrite Hname in Hbody.
  destruct (String.eqb_spec name "") as [|_]; [done|].
  unfold getField in Hbody. rewrite Hname in Hbody.
  split; [|split; [|split]].
  - intros Henv. destruct (String.eqb_spec (Getenv w name) "") as [|_]; [done|].
    cbn [negb] in Hbody. by destruct (String.eqb_spec (Getenv w name) "").
  - intros d Henv Hdefault. rewrite Henv, Hdefault in Hbody. cbn in Hbody.
    pose proof (getTags_default _ _ _ _ _ Htags Hdefault) as Hd.
    by destruct (String.eqb_spec d "").
  - intros Henv Hdefault [o Hoptional].
    rewrite Henv, Hdefault, Hoptional in Hbody. cbn in Hbody.
    split; [by apply loadFields_next|].
    rewrite LoadEnv_struct. cbn [fieldsOf].
    by rewrite (loadFields_next _ _ _ _ _ _ _ _ Hbody).
  - intros Henv Hdefault Hoptional.
    rewrite Henv, Hdefault, Hoptional in Hbody. cbn in Hbody.
    split; [by apply loadFields_stops|]. split; [|done].
    rewrite LoadEnv_struct. cbn [fieldsOf].
    by rewrite (loadFields_stops _ _ fields _ vals _ _ _ _ Hbody).
Qed.

(** X19: for an exported field whose type is a structure, once its tag has
    parsed, the loop body is the recursive load of that field.  When the
    recursive call returns no error the loop goes on with the next field;
    when it fails, the nested structure has a first field, the load stops
    with the error "error loading nested struct '<that field's name>':
    <cause>", the cause being the error of the recursive call, and the
    fields after the nested one keep their values and their tags stay
    unread. *)
Theorem nested_struct_failure f v tagNames tags tagNames1 name inner sname fields vals :
  getTags f tagNames = (TagsOk tags, tagNames1) →
  Type_ f = TStruct name inner → Exported f = true →
  (∀ v' tagNames2,
     LoadEnv w (PointerTo (Type_ f) (Some v)) tagNames1
       = (PointerTo (Type_ f) (Some v'), tagNames2, Nil) →
     loadFields w (loadStruct w) (f :: fields) (v :: vals) tagNames
     = (let r := loadFields w (loadStruct w) fields vals tagNames2 in
        (v' :: r.1.1, r.1.2, r.2)))
  ∧ (∀ v' tagNames2 cause,
     LoadEnv w (PointerTo (Type_ f) (Some v)) tagNames1
       = (PointerTo (Type_ f) (Some v'), tagNames2, Fails cause) →
     ∃ f0 inner',
       inner = f0 :: inner'
       ∧ loadFields w (loadStruct w) (f :: fields) (v :: vals) tagNames
         = (v' :: vals, tagNames2, Fails (nestedError (Name f0) cause))
       ∧ LoadEnv w (PointerTo (TStruct sname (f :: fields)) (Some (VStruct (v :: vals))))
           tagNames
         = (PointerTo (TStruct sname (f :: fields)) (Some (VStruct (v' :: vals))),
            tagNames2, Fails (nestedError (Name f0) cause))
       ∧ Error (nestedError (Name f0) cause)
         = ("error loading nested struct '" ++ Name f0 ++ "': " ++ Error cause)%string).
Proof.
  intros Htags Htype Hexported.
  assert (Hbody : ∀ v' tagNames2 out,
    LoadEnv w (PointerTo (Type_ f) (Some v)) tagNames1
      = (PointerTo (Type_ f) (Some v'), tagNames2, out) →
    loadStruct w (Type_ f) v tagNames1 = (v', tagNames2, out)).
  { intros v' tagNames2 out. unfold LoadEnv. rewrite Htype. cbn.
    destruct (loadFields w (loadStruct w) inner (fieldsOf v) tagNames1) as [[vals' tn] out'].
    by intros [= <- <- <-]. }
  split.
  - intros v' tagNames2 Hcall%Hbody. apply loadFields_next.
    unfold loadField. rewrite Htags, Htype, Hexported. cbn [negb].
    rewrite <- Htype, Hcall. done.
  - intros v' tagNames2 cause Hcall%Hbody.
    destruct inner as [|f0 inner'].
    { rewrite Htype in Hcall. by cbn in Hcall. }
    exists f0, inner'. split; [done|].
    assert (Hfield : loadField w (loadStruct w) f v tagNames
                     = (v', tagNames2, Fails (nestedError (Name f0) cause))).
    { unfold loadField. rewrite Htags, Htype, Hexported. cbn [negb].
      rewrite <- Htype, Hcall. done. }
    split; [by apply loadFields_stops|]. split; [|done].
    rewrite LoadEnv_struct. cbn [fieldsOf].
    by rewrite (loadFields_stops _ _ fields _ vals _ _ _ _ Hfield).
Qed.

(** C6: an argument that is not a pointer, or that is a pointer to
    something that is not a structure (the nil pointer included), makes
    [LoadEnv] return the error "config must be a pointer to a struct"; the
    argument and the registry of names are as they were. *)
Theorem config_must_be_struct_pointer c tagNames :
  configKind c ≠ Pointer ∨ elemKind c ≠ Struct →
  LoadEnv w c tagNames
    = (c, tagNames, Fails (errorString "config must be a pointer to a struct"))
  ∧ Error (errorString "config must be a pointer to a struct")
    = "config must be a pointer to a struct"%string.
Proof.
  intros Hkind. split; [|done]. unfold LoadEnv.
  destruct c as [|t v|t [v|]]; try done.
  - by destruct t.
  - destruct t; try done. by destruct Hkind.
Qed.

(** *** The registry only grows *)

Lemma loadField_registry recurse f v tagNames :
  (∀ v tn, tn ⊆ (recurse (Type_ f) v tn).1.2) →
  tagNames ⊆ (loadField w recurse f v tagNames).1.2.
Proof.
  intros Hrec. unfold loadField.
  pose proof (getTags_registry f tagNames) as Htags.
  destruct (getTags f tagNames) as [[tags|err|p] tn1]; cbn in Htags |- *; [|done..].
  destruct (Type_ f) as [n k|n inner|n e|n l e] eqn:Ht.
  2:{ destruct (Exported f); cbn; [|done].
      specialize (Hrec v tn1).
      destruct (recurse (TStruct n inner) v tn1) as [[v' tn2] out].
      cbn in Hrec. destruct out as [[err|]|p]; [destruct inner|..]; cbn; set_solver. }
  all: destruct (String.eqb (tagOf tags "name") ""); [done|];
    destruct (getField w tags) as [str [err|]]; [done|];
    destruct (String.eqb str ""); [done|];
    by destruct (populate w f v str tags).
Qed.

Lemma loadFields_registry recurse fields :
  Forall (λ f, ∀ v tn, tn ⊆ (recurse (Type_ f) v tn).1.2) fields →
  ∀ vals tagNames, tagNames ⊆ (loadFields w recurse fields vals tagNames).1.2.
Proof.
  induction 1 as [|f fields Hf _ IH]; intros vals tagNames; [done|].
  cbn [loadFields].
  pose proof (loadField_registry recurse f (fieldValue f vals) tagNames Hf) as Hfield.
  destruct (loadField w recurse f (fieldValue f vals) tagNames) as [[v' tn1] out].
  cbn in Hfield. destruct out as [[err|]|p]; [done| |done].
  specialize (IH (tl vals) tn1).
  destruct (loadFields w recurse fields (tl vals) tn1) as [[vals' tn2] out'].
  cbn in IH |- *. set_solver.
Qed.

Lemma loadStruct_registry t :
  ∀ v tagNames, tagNames ⊆ (loadStruct w t v tagNames).1.2.
Proof.
  induction t as [n k|n fields IH|n e _|n l e _] using rtype_nested_ind;
    intros v tagNames; [done| |done|done].
  cbn [loadStruct].
  pose proof (loadFields_registry (loadStruct w) fields IH (fieldsOf v) tagNames) as Hloop.
  by destruct (loadFields w (loadStruct w) fields (fieldsOf v) tagNames) as [[vals tn] out].
Qed.

Lemma loadFields_grows fields vals tagNames :
  tagNames ⊆ (loadFields w (loadStruct w) fields vals tagNames).1.2.
Proof.
  apply loadFields_registry, Forall_forall. intros f _. apply loadStruct_registry.
Qed.

(** *** The fields whose tags a successful load has read *)

(** What it takes for the loop body to be done with a field. *)
Lemma loadField_nil_inv f v tagNames v' tagNames' :
  loadField w (loadStruct w) f v tagNames = (v', tagNames', Nil) →
  ∃ tags tn1,
    getTags f tagNames = (TagsOk tags, tn1) ∧ tn1 ⊆ tagNames'
    ∧ (∀ name inner, Type_ f = TStruct name inner →
         loadStruct w (Type_ f) v tn1 = (v', tagNames', Nil)).
Proof.
  unfold loadField.
  destruct (getTags f tagNames) as [[tags|err|p] tn1]; [|done..].
  intros Hbody. exists tags, tn1. split; [done|].
  destruct (Type_ f) as [n k|n inner|n e|n l e] eqn:Ht.
  2:{ destruct (Exported f); cbn [negb] in Hbody; [|done].
      pose proof (loadStruct_registry (TStruct n inner) v tn1) as Hsub.
      destruct (loadStruct w (TStruct n inner) v tn1) as [[v2 tn2] out].
      destruct out as [[err|]|p]; [by destruct inner| |done].
      injection Hbody as <- <-. by split. }
  all: split; [|done];
    destruct (String.eqb (tagOf tags "name") ""); [by injection Hbody as <- <-|];
    destruct (getField w tags) as [str [err|]]; [done|];
    destruct (String.eqb str ""); [by injection Hbody as <- <-|];
    destruct (populate w f v str tags); by injection Hbody as <- <-.
Qed.

Lemma loadFields_declared fields :
  Forall (λ f, ∀ v tn v' tn',
            loadStruct w (Type_ f) v tn = (v', tn', Nil) →
            ∀ g N, g ∈ declaredFields (Type_ f) → directiveName g = Some N → N ∈ tn')
    fields →
  ∀ vals tagNames vals' tagNames',
    loadFields w (loadStruct w) fields vals tagNames = (vals', tagNames', Nil) →
    ∀ g N,
      g ∈ flat_map (λ f, f :: declaredFields (Type_ f)) fields →
      directiveName g = Some N → N ∈ tagNames'.
Proof.
  induction 1 as [|f fields Hf _ IH];
    intros vals tagNames vals' tagNames' Hload g N Hin Hname.
  { by apply elem_of_nil in Hin. }
  cbn [loadFields] in Hload.
  destruct (loadField w (loadStruct w) f (fieldValue f vals) tagNames)
    as [[v1 tn1] out] eqn:Hfield.
  destruct out as [[err|]|p]; [done| |done].
  pose proof (loadFields_grows fields (tl vals) tn1) as Hgrows.
  destruct (loadFields w (loadStruct w) fields (tl vals) tn1)
    as [[vals2 tn2] out2] eqn:Hrest.
  injection Hload as <- <- ->. cbn in Hgrows.
  cbn [flat_map] in Hin. apply elem_of_app in Hin as [Hin|Hin].
  2:{ by eapply IH. }
  apply Hgrows.
  apply loadField_nil_inv in Hfield as (tags & tn0 & Htags & Hsub & Hstruct).
  apply elem_of_cons in Hin as [->|Hin].
  - apply Hsub. by eapply getTags_records.
  - destruct (Type_ f) as [n k|n inner|n e|n l e] eqn:Ht;
      try by apply elem_of_nil in Hin.
    eapply Hf; [by eapply Hstruct | done | done].
Qed.

Lemma loadStruct_declared t :
  ∀ v tagNames v' tagNames',
    loadStruct w t v tagNames = (v', tagNames', Nil) →
    ∀ g N, g ∈ declaredFields t → directiveName g = Some N → N ∈ tagNames'.
Proof.
  induction t as [n k|n fields IH|n e _|n l e _] using rtype_nested_ind;
    intros v tagNames v' tagNames' Hload g N Hin Hname;
    try by apply elem_of_nil in Hin.
  cbn [loadStruct] in Hload. cbn [declaredFields] in Hin.
  destruct (loadFields w (loadStruct w) fields (fieldsOf v) tagNames)
    as [[vals tn] out] eqn:Hloop.
  injection Hload as <- <- ->.
  by eapply loadFields_declared.
Qed.

Lemma loadField_declared f v tagNames v' tagNames' :
  loadField w (loadStruct w) f v tagNames = (v', tagNames', Nil) →
  ∀ g N, g ∈ f :: declaredFields (Type_ f) → directiveName g = Some N → N ∈ tagNames'.
Proof.
  intros Hfield g N Hin Hname.
  apply loadField_nil_inv in Hfield as (tags & tn0 & Htags & Hsub & Hstruct).
  apply elem_of_cons in Hin as [->|Hin].
  - apply Hsub. by eapply getTags_records.
  - destruct (Type_ f) as [n k|n inner|n e|n l e] eqn:Ht;
      try by apply elem_of_nil in Hin.
    eapply loadStruct_declared; [by eapply Hstruct | done | done].
Qed.

(** *** Reaching the tag of a field *)

Lemma parses_registry fields vals tagNames seen g at_ :
  parses w fields vals tagNames seen g at_ → tagNames ⊆ at_.
Proof.
  induction 1 as [| f fields vals tagNames v' tagNames' seen g at_ Hf _ IH
                  | f fields vals tagNames tags tagNames' name inner seen g at_
                      Htags _ _ _ IH]; [done| |].
  - pose proof (loadField_registry (loadStruct w) f (fieldValue f vals) tagNames
                  (loadStruct_registry _)) as Hsub.
    rewrite Hf in Hsub. cbn in Hsub. set_solver.
  - pose proof (getTags_registry f tagNames) as Hsub.
    rewrite Htags in Hsub. cbn in Hsub. set_solver.
Qed.

(** The names of the fields read before are in the registry. *)
Lemma parses_seen fields vals tagNames seen g at_ :
  parses w fields vals tagNames seen g at_ →
  ∀ f1 N, f1 ∈ seen → directiveName f1 = Some N → N ∈ at_.
Proof.
  induction 1 as [| f fields vals tagNames v' tagNames' seen g at_ Hf Hrest IH
                  | f fields vals tagNames tags tagNames' name inner seen g at_
                      Htags _ _ Hrest IH]; intros f1 N Hin Hname.
  - by apply elem_of_nil in Hin.
  - change (f :: declaredFields (Type_ f) ++ seen)
      with ((f :: declaredFields (Type_ f)) ++ seen) in Hin.
    apply elem_of_app in Hin as [Hin|Hin]; [|by eapply IH].
    eapply parses_registry; [done|]. by eapply loadField_declared.
  - apply elem_of_cons in Hin as [->|Hin]; [|by eapply IH].
    eapply parses_registry; [done|]. by eapply getTags_records.
Qed.

Lemma parses_nonempty fields vals tagNames seen g at_ :
  parses w fields vals tagNames seen g at_ → ∃ f0 rest, fields = f0 :: rest.
Proof. destruct 1; eauto. Qed.

(** A tag whose name is in the registry when it is read stops the load with
    the duplicate-tag error. *)
Lemma parses_duplicate fields vals tagNames seen g at_ N :
  parses w fields vals tagNames seen g at_ →
  directiveName g = Some N → N ∈ at_ →
  ∃ e, (loadFields w (loadStruct w) fields vals tagNames).2 = Fails e
       ∧ duplicateOf N (Name g) e.
Proof.
  intros Hparses Hname.
  induction Hparses as [ g fields vals tagNames
                       | f fields vals tagNames v' tagNames' seen g at_ Hf _ IH
                       | f fields vals tagNames tags tagNames' name inner seen g at_
                           Htags Htype Hexported Hinner IH]; intros Hin.
  - exists (tagsError (Name g) (duplicateTagError N)). split; [|done].
    cbn [loadFields]. unfold loadField. by rewrite (getTags_duplicate g N).
  - destruct (IH Hname Hin) as (e & Hrest & Hdup). exists e. split; [|done].
    cbn [loadFields]. rewrite Hf.
    by destruct (loadFields w (loadStruct w) fields (tl vals) tagNames') as [[vals' tn] out].
  - destruct (IH Hname Hin) as (e & Hrest & Hdup).
    destruct (parses_nonempty _ _ _ _ _ _ Hinner) as (f0 & inner' & ->).
    exists (nestedError (Name f0) e). split; [|done].
    cbn [loadFields]. unfold loadField at 1.
    rewrite Htags, Htype, Hexported. cbn [negb loadStruct].
    destruct (loadFields w (loadStruct w) (f0 :: inner')
                (fieldsOf (fieldValue f vals)) tagNames') as [[vals' tn] out].
    cbn in Hrest. by subst out.
Qed.

End LoaderFacts.

(** The message of a duplicate-tag error ends with the name of the field
    whose tag was read and with the name that was found twice. *)
Lemma duplicateOf_message N field e :
  duplicateOf N field e →
  ∃ prefix,
    Error e = (prefix ++ "error getting tags for field: '" ++ field
               ++ "': duplicate tag: " ++ N)%string.
Proof.
  induction e as [msg|env|value env err _|item|expected got|f err _|f err IH];
    try done.
  - destruct err; try done. intros [-> ->]. by exists ""%string.
  - intros Hdup. destruct (IH Hdup) as [prefix Hmsg].
    exists ("error loading nested struct '" ++ f ++ "': " ++ prefix)%string.
    cbn [Error]. rewrite Hmsg. by rewrite !append_assoc.
Qed.

(** ** Across worlds and calls *)

Lemma LoadEnv_registry w c tagNames : tagNames ⊆ (LoadEnv w c tagNames).1.2.
Proof.
  unfold LoadEnv.
  destruct (negb (isKind (configKind c) Pointer) || negb (isKind (elemKind c) Struct))%bool;
    [done|].
  destruct c as [|t v|t [v|]]; try done.
  pose proof (loadStruct_registry w t v tagNames) as Hsub.
  by destruct (loadStruct w t v tagNames) as [[v' tn] out].
Qed.

Lemma afterLoad_registry tagNames tagNames' :
  rtc afterLoad tagNames tagNames' → tagNames ⊆ tagNames'.
Proof.
  induction 1 as [|tn1 tn2 tn3 (w & c & ->) _ IH]; [done|].
  pose proof (LoadEnv_registry w c tn1). set_solver.
Qed.

(** What a load does once it comes to read a tag whose name is in the
    registry. *)
Lemma LoadEnv_duplicate w sname fields v tagNames seen g at_ N :
  parses w fields (fieldsOf v) tagNames seen g at_ →
  directiveName g = Some N → N ∈ at_ →
  ∃ e prefix,
    (LoadEnv w (PointerTo (TStruct sname fields) (Some v)) tagNames).2 = Fails e
    ∧ duplicateOf N (Name g) e
    ∧ Error e = (prefix ++ "error getting tags for field: '" ++ Name g
                 ++ "': duplicate tag: " ++ N)%string.
Proof.
  intros Hparses Hname Hin.
  destruct (parses_duplicate w _ _ _ _ _ _ _ Hparses Hname Hin) as (e & Hload & Hdup).
  destruct (duplicateOf_message _ _ _ Hdup) as [prefix Hmsg].
  exists e, prefix. split; [|done]. by rewrite LoadEnv_struct.
Qed.

(** C4 (amended): when two fields of a load, siblings or nested, carry
    the same directive name and the load comes to read the tag of the second
    one (no field before it has stopped the load), [LoadEnv] fails with the
    duplicate-tag error: its message ends with "error getting tags for
    field: '<name of the second field>': duplicate tag: <name>", behind the
    prefixes of the nested loads it went through. *)
Theorem duplicate_directive_name w sname fields v tagNames seen f1 g at_ N :
  parses w fields (fieldsOf v) tagNames seen g at_ →
  f1 ∈ seen → directiveName f1 = Some N → directiveName g = Some N →
  ∃ e prefix,
    (LoadEnv w (PointerTo (TStruct sname fields) (Some v)) tagNames).2 = Fails e
    ∧ duplicateOf N (Name g) e
    ∧ Error e = (prefix ++ "error getting tags for field: '" ++ Name g
                 ++ "': duplicate tag: " ++ N)%string.
Proof.
  intros Hparses Hseen Hname1 Hname.
  eapply LoadEnv_duplicate; [done | done |].
  by eapply parses_seen.
Qed.

(** C9: [LoadEnv] never removes a name from the registry, whatever it
    returns; so once a call has left the name [N] in the registry, every
    later call in the process (after any number of calls in between, the
    registry not being reset) that comes to read a tag with the name [N]
    fails with the duplicate-tag error. *)
Theorem registry_outlives_the_load w1 c1 tagNames0 N tagNames w sname fields v seen g at_ :
  N ∈ (LoadEnv w1 c1 tagNames0).1.2 →
  rtc afterLoad (LoadEnv w1 c1 tagNames0).1.2 tagNames →
  parses w fields (fieldsOf v) tagNames seen g at_ →
  directiveName g = Some N →
  tagNames0 ⊆ (LoadEnv w1 c1 tagNames0).1.2
  ∧ N ∈ tagNames
  ∧ ∃ e prefix,
      (LoadEnv w (PointerTo (TStruct sname fields) (Some v)) tagNames).2 = Fails e
      ∧ duplicateOf N (Name g) e
      ∧ Error e = (prefix ++ "error getting tags for field: '" ++ Name g
                   ++ "': duplicate tag: " ++ N)%string.
Proof.
  intros Hrecorded Hlater Hparses Hname.
  pose proof (afterLoad_registry _ _ Hlater) as Hsub.
  split; [apply LoadEnv_registry|]. split; [set_solver|].
  eapply LoadEnv_duplicate; [done | done |].
  eapply parses_registry; [done|]. set_solver.
Qed.

(** X20: once a converter is registered for the type of a field that is
    neither a structure, a slice nor an array and that may be set, loading
    the field from a string the converter accepts, with a value of that
    type, stores exactly that value, whatever the scanner would do;
    [setField] uses the converter for a type of any kind; and a
    registration replaces an earlier one for the same type. *)
Theorem registered_converter_is_used w UnmarshalEnv f v tagNames tags tagNames' str x k :
  kindOf (Type_ f) = Basic k → Exported f = true →
  getTags f tagNames = (TagsOk tags, tagNames') →
  tagOf tags "name" ≠ ""%string →
  getField w tags = (str, None) → str ≠ ""%string →
  UnmarshalEnv str = (Some (typeName (Type_ f), x), None) →
  loadField (RegisterEnvType (typeName (Type_ f)) UnmarshalEnv w)
    (loadStruct (RegisterEnvType (typeName (Type_ f)) UnmarshalEnv w)) f v tagNames
    = (x, tagNames', Nil)
  ∧ (∀ t old, typeName t = typeName (Type_ f) →
       setField (RegisterEnvType (typeName (Type_ f)) UnmarshalEnv w) t true old str tags
       = (x, Nil))
  ∧ (∀ T earlier,
       envTypes (RegisterEnvType T UnmarshalEnv (RegisterEnvType T earlier w)) !! T
       = Some UnmarshalEnv).
Proof.
  intros Hkind Hexported Htags Hname Hresolved Hstr Haccepts.
  assert (Hset : ∀ t old, typeName t = typeName (Type_ f) →
    setField (RegisterEnvType (typeName (Type_ f)) UnmarshalEnv w) t true old str tags
    = (x, Nil)).
  { intros t old Ht. unfold setField. cbn [negb RegisterEnvType envTypes].
    rewrite Ht, lookup_insert_eq, Haccepts. by rewrite String.eqb_refl. }
  split; [|split; [done|]].
  - rewrite (loadField_plain _ _ _ _ _ _ _ Htags) by (rewrite Hkind; done).
    destruct (String.eqb_spec (tagOf tags "name") "") as [|_]; [done|].
    change (getField (RegisterEnvType (typeName (Type_ f)) UnmarshalEnv w) tags)
      with (getField w tags).
    rewrite Hresolved. destruct (String.eqb_spec str "") as [|_]; [done|].
    unfold populate. rewrite Hkind, Hexported. by rewrite Hset.
  - intros T earlier. cbn [RegisterEnvType envTypes]. by rewrite lookup_insert_eq.
Qed.


(** ** The package's tests, run on the model

    The messages name the type [goloadenv.CustomMapType], as the package
    does; the strings the tests expect still name it [load_config]. *)

Example TestLoadEnv :
  loadZero [("HOST", "localhost"); ("PORT", "8080")] TestConfig
  = (PointerTo TestConfig
       (Some (VStruct [VStr "localhost"; VInt 8080; VStr ""; VStr "default";
                       VStruct [VStr "localhost"]; VStruct [VNil]; VNil])),
     {["HOST"; "PORT"; "OPTIONAL"; "DEFAULT"; "DB_HOST"; "PARSE_EMBEDDED_ERR"; "PARSE_ERR"]},
     Nil).
Proof. by vm_compute. Qed.

Example TestLoadEnvMissingEnv :
  message (resultOf (loadZero [] TestConfig))
  = Some "environment variable not found: HOST"%string.
Proof. by vm_compute. Qed.

Example TestEnvParseError :
  message (resultOf (loadZero (("PARSE_ERR", "key1=value1,key2=value2") :: testEnv)
                       TestConfig))
  = Some ("error parsing 'key1=value1,key2=value2' as environment variable PARSE_ERR: "
          ++ "can't scan type: *goloadenv.CustomMapType")%string.
Proof. by vm_compute. Qed.

Example TestConfigStructNotAPointerError :
  message (resultOf (LoadEnv (mkWorld (environ []) scanExample ∅)
                       (ByValue TestConfig (zero TestConfig)) ∅))
  = Some "config must be a pointer to a struct"%string.
Proof. by vm_compute. Qed.

Example TestEmbeddedStructParseError :
  message (resultOf (loadZero (("PARSE_EMBEDDED_ERR", "key1=value1,key2=value2") :: testEnv)
                       TestConfig))
  = Some ("error loading nested struct 'ParseErr': "
          ++ "error parsing 'key1=value1,key2=value2' as environment variable "
          ++ "PARSE_EMBEDDED_ERR: can't scan type: *goloadenv.CustomMapType")%string.
Proof. by vm_compute. Qed.

Example TestDuplicateTagNameError :
  message (resultOf (loadZero testEnv threeHosts))
  = Some "error getting tags for field: 'Host2': duplicate tag: HOST"%string.
Proof. by vm_compute. Qed.

Example TestSliceField :
  valueOf (loadZero [("INT_SLICE", "[1,2,3,4,5]")] intSliceStruct)
  = PointerTo intSliceStruct
      (Some (VStruct [VList [VInt 1; VInt 2; VInt 3; VInt 4; VInt 5]])).
Proof. by vm_compute. Qed.

Example TestArrayField :
  loadZero [("INT_ARRAY", "[1,2,3,4,5]")] (intArrayStruct 5)
  = (PointerTo (intArrayStruct 5)
       (Some (VStruct [VList [VInt 1; VInt 2; VInt 3; VInt 4; VInt 5]])),
     {["INT_ARRAY"]}, Nil).
Proof. by vm_compute. Qed.

(** The same input into an array of four elements. *)
Example array_of_four_overflows :
  message (resultOf (loadZero [("INT_ARRAY", "[1,2,3,4,5]")] (intArrayStruct 4)))
  = Some ("error parsing '[1,2,3,4,5]' as environment variable INT_ARRAY: "
          ++ "array size overflow, expected 4, got 5")%string.
Proof. by vm_compute. Qed.

(** ** Where the code and the specification part *)

Lemma splitAux_cons sep s cur : ∃ first rest, splitAux sep s cur = first :: rest.
Proof.
  revert cur. induction s as [|c s IH]; intros cur; simpl; [eauto|].
  destruct (Ascii.eqb c sep); eauto.
Qed.

(** [strings.Split] returns at least one string. *)
Lemma Split_cons s sep : ∃ first rest, Split s sep = first :: rest.
Proof. apply splitAux_cons. Qed.

(** What [parseArrayString] refuses: strings of fewer than two bytes, and
    strings that have neither the opening nor the closing bracket. *)
Lemma parseArrayString_refuses str :
  (∃ err, parseArrayString str = inr err)
  ↔ String.length str < 2
    ∨ (slice str 0 1 ≠ "["%string
       ∧ slice str (String.length str - 1) (String.length str) ≠ "]"%string).
Proof.
  unfold parseArrayString.
  destruct (Nat.ltb_spec (String.length str) 2) as [Hlen|Hlen]; cbn [orb].
  { split; [by left | eauto]. }
  destruct (String.eqb_spec (slice str 0 1) "[") as [Hopen|Hopen]; cbn [negb andb].
  { split; [by intros [err ?] | intros [?|[? _]]; [lia | done]]. }
  destruct (String.eqb_spec (slice str (String.length str - 1) (String.length str)) "]")
    as [Hclose|Hclose]; cbn [negb].
  { split; [by intros [err ?] | intros [?|[_ ?]]; [lia | done]]. }
  split; [by right | eauto].
Qed.

(** C2: a string with the opening bracket and without the closing one (or
    the other way round) is not refused: it is split as if both were there,
    and the elements are written to the slice. *)
Theorem one_bracket_is_accepted :
  parseArrayString "[1,2)" = inl ["1"; "2"]%string
  ∧ parseArrayString "(1,2]" = inl ["1"; "2"]%string
  ∧ loadZero [("INT_SLICE", "[1,2)")] intSliceStruct
    = (PointerTo intSliceStruct (Some (VStruct [VList [VInt 1; VInt 2]])),
       {["INT_SLICE"]}, Nil)
  ∧ message (resultOf (loadZero [("INT_SLICE", "(1,2)")] intSliceStruct))
    = Some ("error parsing '(1,2)' as environment variable INT_SLICE: "
            ++ "invalid array format")%string.
Proof. by vm_compute. Qed.

(** C3: an array of length zero takes the place of "no limit": no input
    is seen as overflowing it, and the first element is written out of its
    range, so that the load panics where an overflow error is due. *)
Theorem zero_length_array_panics :
  loadZero [("INT_ARRAY", "[1,2,3,4,5]")] (intArrayStruct 0)
  = (PointerTo (intArrayStruct 0) (Some (VStruct [VList []])),
     {["INT_ARRAY"]}, Panics (reflectIndexOutOfRange 0))
  ∧ ∀ w name elem body tags,
      setIterableField w (TArray name 0 elem) true (VList []) ("[" ++ body ++ "]") tags
      = (VList [], Panics (reflectIndexOutOfRange 0)).
Proof.
  split; [by vm_compute|].
  intros w name elem body tags. unfold setIterableField. cbn [negb].
  rewrite parseArrayString_bracketed. cbn [Nat.ltb Nat.leb andb elemsOf].
  destruct (Split_cons body ",") as (first & rest & ->).
  by rewrite setElements_out_of_range by (simpl; lia).
Qed.

(** C1: two fields with a directive name for which no value is resolved,
    whatever the environment holds, the scanner does and the converters
    are.  The tag of a field whose type is a structure is parsed and its
    name recorded, but the loop recurses and goes on: with [START] not set,
    without default and without [optional], the load returns no error.  And
    the option token [name] takes the place of the name of the directive in
    the map, so that the field is skipped, [HOST] set or not. *)
Theorem directive_name_is_not_resolved :
  directiveName (mkField "Start" "START" true timeTime) = Some "START"%string
  ∧ loadZero [] eventStruct
    = (PointerTo eventStruct (Some (zero eventStruct)), {["START"]}, Nil)
  ∧ (∀ w, LoadEnv w (PointerTo eventStruct (Some (zero eventStruct))) ∅
          = (PointerTo eventStruct (Some (zero eventStruct)), {["START"]}, Nil))
  ∧ directiveName (mkField "Host" "HOST;name" true tString) = Some "HOST"%string
  ∧ loadZero [("HOST", "localhost")] nameOptionStruct
    = (PointerTo nameOptionStruct (Some (zero nameOptionStruct)), {["HOST"]}, Nil)
  ∧ (∀ w, LoadEnv w (PointerTo nameOptionStruct (Some (zero nameOptionStruct))) ∅
          = (PointerTo nameOptionStruct (Some (zero nameOptionStruct)), {["HOST"]}, Nil)).
Proof. repeat split; try intros w; by vm_compute. Qed.

(** C5: a nested structure in a field that is not exported.  The loop
    does not recurse into it and returns no error: it panics on the field
    once its tag is read, whatever the nested structure is, and the fields
    after it are not processed; in [unexportedNested] neither [DB_HOST] nor
    [HOST] is recorded. *)
Theorem unexported_struct_field_panics :
  (∀ w, LoadEnv w (PointerTo unexportedNested (Some (zero unexportedNested))) ∅
        = (PointerTo unexportedNested (Some (zero unexportedNested)), ∅,
           Panics reflectUnexported))
  ∧ (∀ w name tname inner fields v vals tagNames,
       loadFields w (loadStruct w)
         (mkField name "" false (TStruct tname inner) :: fields) (v :: vals) tagNames
       = (v :: vals, tagNames, Panics reflectUnexported)).
Proof. split; [intros w; by vm_compute | done]. Qed.

(** C7, as stated, fails on a slice in a field that is not exported: the
    input is between brackets, but no slice is made and the load returns the
    error "field cannot be set". *)
Lemma unexported_slice_is_not_made :
  loadZero [("PORTS", "[1,2]")] unexportedSlice
  = (PointerTo unexportedSlice (Some (VStruct [VList []])), {["PORTS"]},
     Fails (EnvParseError "[1,2]" "PORTS" (errorString "field cannot be set")))
  ∧ message (resultOf (loadZero [("PORTS", "[1,2]")] unexportedSlice))
    = Some ("error parsing '[1,2]' as environment variable PORTS: "
            ++ "field cannot be set")%string.
Proof. by vm_compute. Qed.

(** C4, as stated, fails when a field before the second one stops the load:
    with [HOST] not set the first field fails and the tag of the second is
    never read. *)
Lemma missing_variable_comes_first :
  directiveName (mkField "Host" "HOST" true tString) = Some "HOST"%string
  ∧ directiveName (mkField "Host2" "HOST" true tString) = Some "HOST"%string
  ∧ loadZero [] twoHosts
    = (PointerTo twoHosts (Some (zero twoHosts)), {["HOST"]},
       Fails (EnvNotFoundError "HOST"))
  ∧ message (resultOf (loadZero [] twoHosts))
    = Some "environment variable not found: HOST"%string.
Proof. by vm_compute. Qed.

(** C8: a converter registered for a type that is a structure.  With a
    converter for [time.Time] that accepts "5", a field of that type is
    loaded by recursion: the converter is not called and the field keeps
    its zero value, whatever the converter and the environment are; as the
    element of a slice the same string goes through the converter. *)
Theorem struct_converter_is_not_called :
  unmarshalTime "5" = (Some ("time.Time"%string, VStruct [VInt 5; VInt 0; VNil]), None)
  ∧ LoadEnv (RegisterEnvType "time.Time" unmarshalTime
               (mkWorld (environ [("START", "5")]) scanExample ∅))
      (PointerTo eventStruct (Some (zero eventStruct))) ∅
    = (PointerTo eventStruct (Some (VStruct [VStruct [VInt 0; VInt 0; VNil]])),
       {["START"]}, Nil)
  ∧ (∀ UnmarshalEnv w,
       LoadEnv (RegisterEnvType "time.Time" UnmarshalEnv w)
         (PointerTo eventStruct (Some (zero eventStruct))) ∅
       = (PointerTo eventStruct (Some (zero eventStruct)), {["START"]}, Nil))
  ∧ LoadEnv (RegisterEnvType "time.Time" unmarshalTime
               (mkWorld (environ [("STARTS", "[5]")]) scanExample ∅))
      (PointerTo timesStruct (Some (zero timesStruct))) ∅
    = (PointerTo timesStruct (Some (VStruct [VList [VStruct [VInt 5; VInt 0; VNil]]])),
       {["STARTS"]}, Nil).
Proof. repeat split; try intros UnmarshalEnv w; by vm_compute. Qed.

(** ** The theorems at work on the test structures *)

(** [OPTIONAL] is not set: the field keeps its value and the load returns
    no error; [HOST] is not set: the load stops on it. *)
Lemma field_value_resolution_witness :
  LoadEnv (mkWorld (environ []) scanExample ∅)
    (PointerTo (TStruct "struct" [mkField "Optional" "OPTIONAL;optional" true tString])
       (Some (VStruct [VStr ""]))) ∅
  = (PointerTo (TStruct "struct" [mkField "Optional" "OPTIONAL;optional" true tString])
       (Some (VStruct [VStr ""])),
     {["OPTIONAL"]}, Nil).
Proof.
  edestruct (field_value_resolution (mkWorld (environ []) scanExample ∅)
               (mkField "Optional" "OPTIONAL;optional" true tString) (VStr "") ∅
               (<["optional" := ""]> (<["name" := "OPTIONAL"]> ∅)) {["OPTIONAL"]}
               "OPTIONAL" "struct" [] [])
    as (_ & _ & Hoptional & _);
    [by vm_compute | done | by vm_compute | done |].
  refine (proj2 (Hoptional _ _ _));
    [by vm_compute | by vm_compute | exists ""%string; by vm_compute].
Defined.

Lemma nested_struct_failure_witness :
  ∃ f0 inner',
    [mkField "ParseErr" "PARSE_EMBEDDED_ERR;optional" true CustomMapType] = f0 :: inner'
    ∧ loadFields (mkWorld (environ [("PARSE_EMBEDDED_ERR", "k=v")]) scanExample ∅)
        (loadStruct (mkWorld (environ [("PARSE_EMBEDDED_ERR", "k=v")]) scanExample ∅))
        [mkField "StructParseErr" "" true EmbbededParseErrStruct;
         mkField "ParseErr" "PARSE_ERR;optional" true CustomMapType]
        [VStruct [VNil]; VNil] ∅
      = ([VStruct [VNil]; VNil], {["PARSE_EMBEDDED_ERR"]},
         Fails (nestedError (Name f0)
                  (EnvParseError "k=v" "PARSE_EMBEDDED_ERR"
                     (errorString "can't scan type: *goloadenv.CustomMapType"))))
    ∧ LoadEnv (mkWorld (environ [("PARSE_EMBEDDED_ERR", "k=v")]) scanExample ∅)
        (PointerTo
           (TStruct "struct"
              [mkField "StructParseErr" "" true EmbbededParseErrStruct;
               mkField "ParseErr" "PARSE_ERR;optional" true CustomMapType])
           (Some (VStruct [VStruct [VNil]; VNil]))) ∅
      = (PointerTo
           (TStruct "struct"
              [mkField "StructParseErr" "" true EmbbededParseErrStruct;
               mkField "ParseErr" "PARSE_ERR;optional" true CustomMapType])
           (Some (VStruct [VStruct [VNil]; VNil])),
         {["PARSE_EMBEDDED_ERR"]},
         Fails (nestedError (Name f0)
                  (EnvParseError "k=v" "PARSE_EMBEDDED_ERR"
                     (errorString "can't scan type: *goloadenv.CustomMapType"))))
    ∧ Error (nestedError (Name f0)
               (EnvParseError "k=v" "PARSE_EMBEDDED_ERR"
                  (errorString "can't scan type: *goloadenv.CustomMapType")))
      = ("error loading nested struct '" ++ Name f0 ++ "': "
         ++ Error (EnvParseError "k=v" "PARSE_EMBEDDED_ERR"
                     (errorString "can't scan type: *goloadenv.CustomMapType")))%string.
Proof.
  apply (proj2 (nested_struct_failure
                  (mkWorld (environ [("PARSE_EMBEDDED_ERR", "k=v")]) scanExample ∅)
                  (mkField "StructParseErr" "" true EmbbededParseErrStruct)
                  (VStruct [VNil]) ∅ ∅ ∅ "goloadenv.EmbbededParseErrStruct"
                  [mkField "ParseErr" "PARSE_EMBEDDED_ERR;optional" true CustomMapType]
                  "struct" [mkField "ParseErr" "PARSE_ERR;optional" true CustomMapType]
                  [VNil] ltac:(by vm_compute) ltac:(by vm_compute) ltac:(by vm_compute))).
  by vm_compute.
Defined.

Lemma config_must_be_struct_pointer_witness :
  LoadEnv (mkWorld (environ testEnv) scanExample ∅)
    (ByValue TestConfig (zero TestConfig)) {["HOST"]}
  = (ByValue TestConfig (zero TestConfig), {["HOST"]},
     Fails (errorString "config must be a pointer to a struct"))
  ∧ Error (errorString "config must be a pointer to a struct")
    = "config must be a pointer to a struct"%string.
Proof. apply config_must_be_struct_pointer. left. discriminate. Defined.

(** A slice that held one element is made anew for three; with "x" in the
    middle the load stops there, the slice having three elements; a slice
    that may not be set stays as it is. *)
Lemma slice_is_made_and_filled_witness :
  setIterableField (mkWorld (environ []) scanExample ∅) (TSlice "[]int" tInt) true
    (VList [VInt 9]) "[1,2,3]" (<["name" := "INT_SLICE"]> ∅)
  = (VList [VInt 1; VInt 2; VInt 3], Nil)
  ∧ setIterableField (mkWorld (environ []) scanExample ∅) (TSlice "[]int" tInt) true
      (VList [VInt 9]) "[1,x,3]" (<["name" := "INT_SLICE"]> ∅)
    = (VList [VInt 1; VInt 0; VInt 0],
       Fails (EnvParseError "x" "INT_SLICE" (errorString "expected integer")))
  ∧ setIterableField (mkWorld (environ []) scanExample ∅) (TSlice "[]int" tInt) false
      (VList [VInt 9]) "[1,2,3]" (<["name" := "INT_SLICE"]> ∅)
    = (VList [VInt 9],
       Fails (EnvParseError "[1,2,3]" "INT_SLICE" (errorString "field cannot be set"))).
Proof.
  split; [|split].
  - apply (proj1 (proj2 (slice_is_made_and_filled (mkWorld (environ []) scanExample ∅)
                           "[]int" tInt true (VList [VInt 9]) "1,2,3"
                           (<["name" := "INT_SLICE"]> ∅))) eq_refl
             [VInt 1; VInt 2; VInt 3]).
    repeat constructor.
  - refine (proj1 (proj2 (proj2 (slice_is_made_and_filled
                                   (mkWorld (environ []) scanExample ∅)
                                   "[]int" tInt true (VList [VInt 9]) "1,x,3"
                                   (<["name" := "INT_SLICE"]> ∅))) eq_refl
                     ["1"%string] "x"%string ["3"%string] [VInt 1] (VInt 0)
                     (errorString "expected integer") _ _ _)).
    + reflexivity.
    + repeat constructor.
    + reflexivity.
  - refine (proj1 (proj1 (slice_is_made_and_filled (mkWorld (environ []) scanExample ∅)
                            "[]int" tInt false (VList [VInt 9]) "1,2,3"
                            (<["name" := "INT_SLICE"]> ∅)) eq_refl)).
Defined.

Lemma registered_converter_is_used_witness :
  loadField
    (RegisterEnvType "slog.Level" unmarshalLevel
       (mkWorld (environ [("LOG_LEVEL", "WARN")]) scanExample ∅))
    (loadStruct
       (RegisterEnvType "slog.Level" unmarshalLevel
          (mkWorld (environ [("LOG_LEVEL", "WARN")]) scanExample ∅)))
    (mkField "LogLevel" "LOG_LEVEL" true slogLevel) (VInt 0) ∅
  = (VInt 4, {["LOG_LEVEL"]}, Nil).
Proof.
  apply (registered_converter_is_used
           (mkWorld (environ [("LOG_LEVEL", "WARN")]) scanExample ∅) unmarshalLevel
           (mkField "LogLevel" "LOG_LEVEL" true slogLevel) (VInt 0) ∅
           (<["name" := "LOG_LEVEL"]> ∅) {["LOG_LEVEL"]} "WARN" (VInt 4) Int);
    by vm_compute.
Defined.

(** The three [HOST] fields of the test: the load comes to the tag of
    [Host2] after it has read that of [Host]. *)
Lemma duplicate_directive_name_witness :
  ∃ e prefix,
    (LoadEnv (mkWorld (environ testEnv) scanExample ∅)
       (PointerTo threeHosts (Some (zero threeHosts))) ∅).2 = Fails e
    ∧ duplicateOf "HOST" "Host2" e
    ∧ Error e = (prefix ++ "error getting tags for field: '" ++ "Host2"
                 ++ "': duplicate tag: " ++ "HOST")%string.
Proof.
  apply (duplicate_directive_name (mkWorld (environ testEnv) scanExample ∅) "struct"
           [mkField "Host" "HOST" true tString; mkField "Host2" "HOST" true tString;
            mkField "Host3" "HOST" true tString]
           (zero threeHosts) ∅
           [mkField "Host" "HOST" true tString]
           (mkField "Host" "HOST" true tString)
           (mkField "Host2" "HOST" true tString) {["HOST"]} "HOST").
  - apply (parses_next _ (mkField "Host" "HOST" true tString) _ _ ∅
             (VStr "localhost") {["HOST"]} [] _ _); [by vm_compute|].
    apply parses_here.
  - apply list_elem_of_here.
  - reflexivity.
  - reflexivity.
Defined.

(** A first load of [TestConfig] leaves [HOST] in the registry; a second
    load, of another structure with a [HOST] field, fails on it. *)
Lemma registry_outlives_the_load_witness :
  ∅ ⊆ (loadZero testEnv TestConfig).1.2
  ∧ "HOST"%string ∈ (loadZero testEnv TestConfig).1.2
  ∧ ∃ e prefix,
      (LoadEnv (mkWorld (environ testEnv) scanExample ∅)
         (PointerTo twoHosts (Some (zero twoHosts)))
         (loadZero testEnv TestConfig).1.2).2 = Fails e
      ∧ duplicateOf "HOST" "Host" e
      ∧ Error e = (prefix ++ "error getting tags for field: '" ++ "Host"
                   ++ "': duplicate tag: " ++ "HOST")%string.
Proof.
  apply (registry_outlives_the_load (mkWorld (environ testEnv) scanExample ∅)
           (PointerTo TestConfig (Some (zero TestConfig))) ∅ "HOST"
           (loadZero testEnv TestConfig).1.2
           (mkWorld (environ testEnv) scanExample ∅) "struct"
           [mkField "Host" "HOST" true tString; mkField "Host2" "HOST" true tString]
           (zero twoHosts) [] (mkField "Host" "HOST" true tString)
           (loadZero testEnv TestConfig).1.2).
  - by vm_compute.
  - apply rtc_refl.
  - apply parses_here.
  - reflexivity.
Defined.

(** Three strings into an array of five: the last two elements stay. *)
Lemma array_is_filled_witness :
  setIterableField (mkWorld (environ []) scanExample ∅) (TArray "[5]int" 5 tInt) true
    (VList [VInt 7; VInt 7; VInt 7; VInt 7; VInt 7]) "[1,2,3]"
    (<["name" := "INT_ARRAY"]> ∅)
  = (VList [VInt 1; VInt 2; VInt 3; VInt 7; VInt 7], Nil).
Proof.
  apply (proj1 (array_is_filled (mkWorld (environ []) scanExample ∅) "[5]int" 5 tInt
                  [VInt 7; VInt 7; VInt 7; VInt 7; VInt 7] "1,2,3"
                  (<["name" := "INT_ARRAY"]> ∅) eq_refl ltac:(lia))
           [VInt 1; VInt 2; VInt 3]).
  - vm_compute. lia.
  - repeat constructor.
Defined.


(** ** More on the tag parser *)

Lemma allChars_app p s t :
  allChars p (s ++ t)%string = (allChars p s && allChars p t)%bool.
Proof.
  induction s as [|c s IH]; [done|].
  change (String c s ++ t)%string with (String c (s ++ t)).
  cbn [allChars]. rewrite IH. by destruct (p c).
Qed.

Lemma fieldsAux_tokens f s cur :
  allChars (λ c, negb (f c)) cur = true →
  Forall (λ token, allChars (λ c, negb (f c)) token = true) (fieldsAux f s cur).
Proof.
  revert cur. induction s as [|c s IH]; intros cur Hcur; simpl.
  - destruct (String.eqb cur ""); auto.
  - destruct (f c) eqn:Hc.
    + destruct (String.eqb cur ""); auto.
    + apply IH. rewrite allChars_app, Hcur. cbn. by rewrite Hc.
Qed.

(** No token of a tag holds a separator. *)
Lemma FieldsFunc_separator_free tag :
  Forall (λ token, separatorFree token = true) (FieldsFunc tag SplitTags).
Proof. by apply fieldsAux_tokens. Qed.

Lemma fieldsAux_nil f s cur :
  fieldsAux f s cur = [] ↔ cur = ""%string ∧ allChars f s = true.
Proof.
  revert cur. induction s as [|c s IH]; intros cur; simpl.
  - destruct (String.eqb_spec cur ""); naive_solver.
  - destruct (f c); cbn [andb].
    + destruct (String.eqb_spec cur ""); [rewrite IH|]; naive_solver.
    + rewrite IH. split; [|naive_solver]. intros [Hcur _]. by destruct cur.
Qed.

(** A tag has no token exactly when it is empty or made of separators. *)
Lemma FieldsFunc_nil tag :
  FieldsFunc tag SplitTags = [] ↔ allChars SplitTags tag = true.
Proof. unfold FieldsFunc. rewrite fieldsAux_nil. naive_solver. Qed.

(** The value stored for [default] is one of the tokens. *)
Lemma tagLoop_default_token len index rest m tagNames tags tagNames' d :
  index ≠ 0 →
  tagLoop len index rest m tagNames = (TagsOk tags, tagNames') →
  tags !! "default"%string = Some d → d ∈ rest ∨ m !! "default"%string = Some d.
Proof.
  revert index m tagNames.
  induction rest as [rest IH] using (induction_ltof1 _ (@length string)).
  unfold ltof in IH. intros index m tagNames Hindex.
  destruct rest as [|item rest].
  { intros [= <- <-] Hd. by right. }
  destruct index as [|index]; [done|]. cbn [tagLoop Nat.eqb].
  destruct (String.eqb_spec item "default") as [->|Hne].
  - destruct (m !! "default"%string) eqn:Hlook; [done|].
    destruct rest as [|next rest]; [done|].
    intros Hloop Hd. left.
    destruct (IH rest ltac:(simpl; lia) (S (S (S index))) _ _ ltac:(done) Hloop Hd) as [Hin|Hm].
    + set_solver.
    + rewrite lookup_insert_eq in Hm. injection Hm as ->. set_solver.
  - intros Hloop Hd.
    destruct (IH rest ltac:(simpl; lia) (S (S index)) _ _ ltac:(done) Hloop Hd) as [Hin|Hm].
    + left. set_solver.
    + right. by rewrite lookup_insert_ne in Hm.
Qed.

(** Every keyword other than [default] is stored as a flag with the empty
    value, over what the map held. *)
Lemma tagLoop_flags len index rest m tagNames tags tagNames' k :
  index ≠ 0 → k ≠ "default"%string →
  tagLoop len index rest m tagNames = (TagsOk tags, tagNames') →
  tags !! k = if decide (k ∈ keywords rest) then Some ""%string else m !! k.
Proof.
  revert index m tagNames.
  induction rest as [rest IH] using (induction_ltof1 _ (@length string)).
  unfold ltof in IH. intros index m tagNames Hindex Hk.
  destruct rest as [|item rest].
  { intros [= <- <-]. cbn. by rewrite decide_False by set_solver. }
  destruct index as [|index]; [done|]. cbn [tagLoop Nat.eqb keywords].
  destruct (String.eqb_spec item "default") as [->|Hne].
  - destruct (m !! "default"%string) eqn:Hlook; [done|].
    destruct rest as [|next rest]; [done|].
    intros Hloop. rewrite (IH rest ltac:(simpl; lia) (S (S (S index))) _ _ ltac:(done) Hk Hloop).
    rewrite lookup_insert_ne by done.
    destruct (decide (k ∈ keywords rest));
      [rewrite decide_True by set_solver | rewrite decide_False by set_solver]; done.
  - intros Hloop. rewrite (IH rest ltac:(simpl; lia) (S (S index)) _ _ ltac:(done) Hk Hloop).
    destruct (decide (k ∈ keywords rest)); [by rewrite decide_True by set_solver|].
    destruct (decide (k = item)) as [->|Hki].
    + rewrite decide_True by set_solver. by rewrite lookup_insert_eq.
    + rewrite decide_False by set_solver. by rewrite lookup_insert_ne.
Qed.

(** What the loop over the options does, by the number of [default]
    keywords (one more when the map has a default already). *)
Lemma tagLoop_outcome len index rest m tagNames seen :
  index ≠ 0 →
  seen = match m !! "default"%string with Some _ => 1 | None => 0 end →
  (2 ≤ defaultCount rest + seen →
     (tagLoop len index rest m tagNames).1 = TagsErr (duplicateTagError "default"))
  ∧ (defaultCount rest + seen ≤ 1 → optionsComplete rest = false →
     (tagLoop len index rest m tagNames).1
       = TagsPanic (indexOutOfRange (index + length rest) len))
  ∧ (defaultCount rest + seen ≤ 1 → optionsComplete rest = true →
     ∃ tags, (tagLoop len index rest m tagNames).1 = TagsOk tags).
Proof.
  revert index m tagNames seen.
  induction rest as [rest IH] using (induction_ltof1 _ (@length string)).
  unfold ltof in IH. intros index m tagNames seen Hindex ->.
  destruct rest as [|item rest].
  { cbn. destruct (m !! "default"%string);
      (split; [|split]); intros; try lia; try done; eauto. }
  destruct index as [|index]; [done|].
  unfold defaultCount. cbn [tagLoop Nat.eqb keywords optionsComplete].
  destruct (String.eqb_spec item "default") as [->|Hne].
  - rewrite filter_cons_True by done. cbn [length].
    destruct (m !! "default"%string) eqn:Hlook.
    { split; [|split]; intros; (done || lia). }
    destruct rest as [|next rest].
    { cbn. split; [|split]; intros; try lia; done. }
    destruct (IH rest ltac:(simpl; lia) (S (S (S index)))
                (<["default"%string := next]> m) tagNames 1 ltac:(done)
                ltac:(by rewrite lookup_insert_eq)) as (IH1 & IH2 & IH3).
    unfold defaultCount in IH1, IH2, IH3. split; [|split].
    + intros Hc. apply IH1. lia.
    + intros Hc Hcomplete. rewrite IH2 by (done || lia). do 2 f_equal. simpl. lia.
    + intros Hc Hcomplete. apply IH3; [lia | done].
  - rewrite filter_cons_False by done.
    destruct (IH rest ltac:(simpl; lia) (S (S index))
                (<[item := ""%string]> m) tagNames
                (match m !! "default"%string with Some _ => 1 | None => 0 end)
                ltac:(done) ltac:(by rewrite lookup_insert_ne))
      as (IH1 & IH2 & IH3).
    unfold defaultCount in IH1, IH2, IH3. split; [|split].
    + done.
    + intros Hc Hcomplete. rewrite IH2 by done. do 2 f_equal. simpl. lia.
    + done.
Qed.

Lemma tagLoop_has_default len index rest m tagNames tags tagNames' :
  index ≠ 0 →
  tagLoop len index rest m tagNames = (TagsOk tags, tagNames') →
  is_Some (tags !! "default"%string)
  ↔ "default"%string ∈ keywords rest ∨ is_Some (m !! "default"%string).
Proof.
  revert index m tagNames.
  induction rest as [rest IH] using (induction_ltof1 _ (@length string)).
  unfold ltof in IH. intros index m tagNames Hindex.
  destruct rest as [|item rest].
  { intros [= <- <-]. cbn. set_solver. }
  destruct index as [|index]; [done|]. cbn [tagLoop Nat.eqb keywords].
  destruct (String.eqb_spec item "default") as [->|Hne].
  - destruct (m !! "default"%string) eqn:Hlook; [done|].
    destruct rest as [|next rest]; [done|].
    intros Hloop.
    rewrite (IH rest ltac:(simpl; lia) (S (S (S index))) _ _ ltac:(done) Hloop).
    rewrite lookup_insert_eq. split; [left; set_solver | eauto].
  - intros Hloop.
    rewrite (IH rest ltac:(simpl; lia) (S (S index)) _ _ ltac:(done) Hloop).
    rewrite lookup_insert_ne by done. set_solver.
Qed.

(** The default of the map the loop returns: the one the map held, or the
    token that follows the first [default] among the options. *)
Lemma tagLoop_default_value len index rest m tagNames tags tagNames' :
  index ≠ 0 →
  tagLoop len index rest m tagNames = (TagsOk tags, tagNames') →
  tags !! "default"%string
  = match m !! "default"%string with
    | Some d => Some d
    | None => defaultOf rest
    end.
Proof.
  revert index m tagNames.
  induction rest as [rest IH] using (induction_ltof1 _ (@length string)).
  unfold ltof in IH. intros index m tagNames Hindex.
  destruct rest as [|item rest].
  { intros [= <- <-]. by destruct (m !! "default"%string). }
  destruct index as [|index]; [done|]. cbn [tagLoop Nat.eqb defaultOf].
  destruct (String.eqb_spec item "default") as [->|Hne].
  - destruct (m !! "default"%string) eqn:Hlook; [done|].
    destruct rest as [|next rest]; [done|].
    intros Hloop.
    rewrite (IH rest ltac:(simpl; lia) (S (S (S index))) _ _ ltac:(done) Hloop).
    by rewrite lookup_insert_eq.
  - intros Hloop.
    rewrite (IH rest ltac:(simpl; lia) (S (S index)) _ _ ltac:(done) Hloop).
    by rewrite lookup_insert_ne.
Qed.

(** X3: what [tagSliceToKeyMap] does on a name and its options.  A name
    that is in the registry is refused and nothing is recorded.  A fresh name
    is recorded whatever follows: with two [default] keywords the call fails
    with "duplicate tag: default", with a single one that has no value it
    panics on the index one past the end, and otherwise it returns a map,
    whose default is the token that follows the [default] keyword (none
    when there is no such keyword). *)
Theorem tagSliceToKeyMap_outcome name opts tagNames :
  (name ∈ tagNames →
     tagSliceToKeyMap (name :: opts) tagNames
     = (TagsErr (duplicateTagError name), tagNames))
  ∧ (name ∉ tagNames →
     (tagSliceToKeyMap (name :: opts) tagNames).2 = {[name]} ∪ tagNames
     ∧ (2 ≤ defaultCount opts →
        (tagSliceToKeyMap (name :: opts) tagNames).1
        = TagsErr (duplicateTagError "default"))
     ∧ (defaultCount opts ≤ 1 → optionsComplete opts = false →
        (tagSliceToKeyMap (name :: opts) tagNames).1
        = TagsPanic (indexOutOfRange (S (length opts)) (S (length opts))))
     ∧ (defaultCount opts ≤ 1 → optionsComplete opts = true →
        ∃ tags, (tagSliceToKeyMap (name :: opts) tagNames).1 = TagsOk tags
                ∧ tags !! "default"%string = defaultOf opts)).
Proof.
  split; [apply tagSliceToKeyMap_duplicate|].
  intros Hfresh. split; [by apply tagSliceToKeyMap_fresh|].
  unfold tagSliceToKeyMap. cbn [tagLoop Nat.eqb length].
  destruct (decide (name ∈ tagNames)); [done|].
  destruct (tagLoop_outcome (S (length opts)) 1 opts (<["name"%string := name]> ∅)
              ({[name]} ∪ tagNames) 0 ltac:(done)
              ltac:(by rewrite lookup_insert_ne, lookup_empty)) as (H1 & H2 & H3).
  rewrite Nat.add_0_r in H1, H2, H3. split; [done|]. split; [done|].
  intros Hcount Hcomplete. destruct (H3 Hcount Hcomplete) as [tags Htags].
  exists tags. split; [done|].
  destruct (tagLoop (S (length opts)) 1 opts (<["name"%string := name]> ∅)
              ({[name]} ∪ tagNames)) as [r tn] eqn:Hloop.
  cbn [fst] in Htags. subst r.
  rewrite (tagLoop_default_value _ _ _ _ _ _ _ ltac:(done) Hloop).
  by rewrite lookup_insert_ne, lookup_empty.
Qed.

(** Two [default] keywords; and a default between the name and a flag. *)
Lemma tagSliceToKeyMap_outcome_witness :
  ((tagSliceToKeyMap ["PORT"; "default"; "80"; "default"; "81"]%string ∅).2
   = {["PORT"%string]}
   ∧ (tagSliceToKeyMap ["PORT"; "default"; "80"; "default"; "81"]%string ∅).1
     = TagsErr (duplicateTagError "default"))
  ∧ ∃ tags,
      (tagSliceToKeyMap ["PORT"; "default"; "80"; "optional"]%string ∅).1 = TagsOk tags
      ∧ tags !! "default"%string = Some "80"%string.
Proof.
  split.
  - destruct (proj2 (tagSliceToKeyMap_outcome "PORT"
                       ["default"; "80"; "default"; "81"]%string ∅))
      as (Hrecorded & Htwice & _); [set_solver|].
    split; [by rewrite Hrecorded, union_empty_r_L | apply Htwice; vm_compute; lia].
  - destruct (proj2 (tagSliceToKeyMap_outcome "PORT"
                       ["default"; "80"; "optional"]%string ∅))
      as (_ & _ & _ & Hmap); [set_solver|].
    apply Hmap; [vm_compute; lia | reflexivity].
Defined.

(** X4: the map [tagSliceToKeyMap] returns.  Every keyword other than
    [default] is a key with the empty value, the keyword [name] included, so
    that it erases the name of the directive; [name] holds the first token
    otherwise; no other key is set; [default] is set exactly when the keyword
    is read, to a token of the slice. *)
Theorem tagSliceToKeyMap_map name opts tagNames tags tagNames' :
  tagSliceToKeyMap (name :: opts) tagNames = (TagsOk tags, tagNames') →
  (∀ k, k ≠ "default"%string →
     tags !! k = if decide (k ∈ keywords opts) then Some ""%string
                 else if decide (k = "name"%string) then Some name else None)
  ∧ (is_Some (tags !! "default"%string) ↔ "default"%string ∈ keywords opts)
  ∧ (∀ d, tags !! "default"%string = Some d → d ∈ opts).
Proof.
  unfold tagSliceToKeyMap. cbn [tagLoop Nat.eqb].
  destruct (decide (name ∈ tagNames)); [done|]. intros Hloop. split; [|split].
  - intros k Hk. rewrite (tagLoop_flags _ _ _ _ _ _ _ k ltac:(done) Hk Hloop).
    destruct (decide (k ∈ keywords opts)); [done|].
    destruct (decide (k = "name"%string)) as [->|Hname];
      [by rewrite lookup_insert_eq | by rewrite lookup_insert_ne, lookup_empty].
  - rewrite (tagLoop_has_default _ _ _ _ _ _ _ ltac:(done) Hloop).
    rewrite lookup_insert_ne, lookup_empty by done.
    split; [intros [?|[? ?]]; done | by left].
  - intros d Hd.
    destruct (tagLoop_default_token _ _ _ _ _ _ _ _ ltac:(done) Hloop Hd) as [?|Hm];
      [done|]. by rewrite lookup_insert_ne, lookup_empty in Hm.
Qed.

(** The keyword [name] among the options: the directive has no name left
    (the field is then skipped). *)
Lemma tagSliceToKeyMap_map_witness :
  (<["name" := ""]> (<["optional" := ""]> (<["name" := "HOST"]> ∅)) : tagmap)
    !! "name"%string
  = if decide ("name"%string ∈ keywords ["optional"; "name"]%string) then Some ""%string
    else if decide ("name"%string = "name"%string) then Some "HOST"%string else None.
Proof.
  assert (tagSliceToKeyMap ["HOST"; "optional"; "name"]%string ∅
          = (TagsOk (<["name" := ""]> (<["optional" := ""]> (<["name" := "HOST"]> ∅))),
             {["HOST"%string]})) as Hparsed by (vm_compute; reflexivity).
  destruct (tagSliceToKeyMap_map "HOST" ["optional"; "name"]%string ∅ _ _ Hparsed)
    as [Hflags _].
  assert ("name"%string ≠ "default"%string) as Hne by discriminate.
  exact (Hflags "name"%string Hne).
Defined.

(** X5: the default of a directive is never empty and holds no [;] and no
    [:], since the tag is split on both: a default such as
    [http://localhost] is cut at the first separator. *)
Theorem default_value_is_a_token f tagNames tags tagNames' d :
  getTags f tagNames = (TagsOk tags, tagNames') →
  tags !! "default"%string = Some d →
  d ≠ ""%string ∧ separatorFree d = true ∧ d ∈ FieldsFunc (Tag f) SplitTags.
Proof.
  intros Htags Hd. split; [by eapply getTags_default|].
  assert (d ∈ FieldsFunc (Tag f) SplitTags) as Hin.
  { unfold getTags in Htags.
    destruct (FieldsFunc (Tag f) SplitTags) as [|name opts] eqn:Htokens.
    - injection Htags as <- <-. by rewrite lookup_empty in Hd.
    - apply elem_of_cons. right.
      unfold tagSliceToKeyMap in Htags. cbn [tagLoop Nat.eqb] in Htags.
      destruct (decide (name ∈ tagNames)); [done|].
      destruct (tagLoop_default_token _ _ _ _ _ _ _ _ ltac:(done) Htags Hd) as [?|Hm];
        [done|]. by rewrite lookup_insert_ne, lookup_empty in Hm. }
  split; [|done].
  by apply (proj1 (Forall_forall _ _) (FieldsFunc_separator_free (Tag f))).
Qed.

Lemma default_value_is_a_token_witness :
  "http"%string ≠ ""%string ∧ separatorFree "http" = true
  ∧ "http"%string ∈ FieldsFunc "URL;default:http://localhost" SplitTags.
Proof.
  assert (getTags (mkField "URL" "URL;default:http://localhost" true tString) ∅
          = (TagsOk (<["//localhost" := ""]> (<["default" := "http"]>
                                                (<["name" := "URL"]> ∅))),
             {["URL"%string]})) as Hparsed by (vm_compute; reflexivity).
  assert ((<["//localhost" := ""]> (<["default" := "http"]> (<["name" := "URL"]> ∅))
             : tagmap) !! "default"%string = Some "http"%string) as Hdefault
    by (vm_compute; reflexivity).
  exact (default_value_is_a_token _ _ _ _ _ Hparsed Hdefault).
Defined.

(** ** More on the loop of [LoadEnv] *)

Lemma getTags_untagged f tagNames :
  allChars SplitTags (Tag f) = true → getTags f tagNames = (TagsOk ∅, tagNames).
Proof. intros Htag%FieldsFunc_nil. unfold getTags. by rewrite Htag. Qed.

(** A field without a tag that is not a structure: the loop body leaves the
    value and the registry as they are. *)
Lemma loadField_untagged w recurse f v tagNames :
  allChars SplitTags (Tag f) = true → kindOf (Type_ f) ≠ Struct →
  loadField w recurse f v tagNames = (v, tagNames, Nil).
Proof.
  intros Htag Hkind.
  by rewrite (loadField_plain w recurse f v _ _ _ (getTags_untagged f _ Htag) Hkind).
Qed.

Lemma loadFields_length w recurse fields :
  ∀ vals tagNames,
    length vals = length fields →
    length (loadFields w recurse fields vals tagNames).1.1 = length fields.
Proof.
  induction fields as [|f fields IH]; intros vals tagNames Hlen; [done|].
  destruct vals as [|v vals]; [done|]. injection Hlen as Hlen.
  cbn [loadFields fieldValue hd tl].
  destruct (loadField w recurse f v tagNames) as [[v' tn] out].
  destruct out as [[e|]|p]; cbn; try by rewrite Hlen.
  specialize (IH vals tn Hlen).
  destruct (loadFields w recurse fields vals tn) as [[vals' tn'] out'].
  cbn in IH |- *. by rewrite IH.
Qed.

Lemma loadFields_untagged w recurse fields :
  ∀ vals tagNames i f v,
    fields !! i = Some f → vals !! i = Some v →
    allChars SplitTags (Tag f) = true → kindOf (Type_ f) ≠ Struct →
    (loadFields w recurse fields vals tagNames).1.1 !! i = Some v.
Proof.
  induction fields as [|f0 fields IH]; intros vals tagNames i f v Hf Hv Htag Hkind;
    [done|].
  destruct vals as [|v0 vals]; [done|]. cbn [loadFields fieldValue hd tl].
  destruct i as [|i].
  - injection Hf as ->. injection Hv as ->.
    rewrite loadField_untagged by done.
    by destruct (loadFields w recurse fields vals tagNames) as [[vals' tn'] out'].
  - cbn in Hf, Hv.
    destruct (loadField w recurse f0 v0 tagNames) as [[v' tn] out].
    destruct out as [[e|]|p]; cbn; try done.
    specialize (IH vals tn i f v Hf Hv Htag Hkind).
    by destruct (loadFields w recurse fields vals tn) as [[vals' tn'] out'].
Qed.

(** X6: [LoadEnv] never changes a field that has no tag (or a tag made of
    separators only) and is not a structure, whatever it does with the other
    fields and whatever it returns; and the structure keeps its number of
    fields. *)
Theorem untagged_field_is_left_alone w sname fields vals tagNames i f v :
  length vals = length fields →
  fields !! i = Some f → vals !! i = Some v →
  allChars SplitTags (Tag f) = true → kindOf (Type_ f) ≠ Struct →
  ∃ vals',
    (LoadEnv w (PointerTo (TStruct sname fields) (Some (VStruct vals))) tagNames).1.1
    = PointerTo (TStruct sname fields) (Some (VStruct vals'))
    ∧ vals' !! i = Some v ∧ length vals' = length vals.
Proof.
  intros Hlen Hf Hv Htag Hkind. rewrite LoadEnv_struct. cbn [fieldsOf].
  eexists. split; [reflexivity|]. split.
  - by eapply loadFields_untagged.
  - rewrite loadFields_length by done. done.
Qed.

Lemma untagged_field_is_left_alone_witness :
  ∃ vals',
    (LoadEnv (mkWorld (environ []) scanExample ∅)
       (PointerTo
          (TStruct "struct"
             [mkField "Host" "HOST" true tString; mkField "Note" "" true tString])
          (Some (VStruct [VStr ""; VStr "kept"]))) ∅).1.1
    = PointerTo
        (TStruct "struct"
           [mkField "Host" "HOST" true tString; mkField "Note" "" true tString])
        (Some (VStruct vals'))
    ∧ vals' !! 1 = Some (VStr "kept") ∧ length vals' = length [VStr ""; VStr "kept"].
Proof.
  apply (untagged_field_is_left_alone (mkWorld (environ []) scanExample ∅) "struct"
           [mkField "Host" "HOST" true tString; mkField "Note" "" true tString]
           [VStr ""; VStr "kept"] ∅ 1 (mkField "Note" "" true tString) (VStr "kept"));
    done.
Defined.

(** What [populate] does with a field that reflection may not set. *)
Lemma populate_unexported w f v str tags :
  Exported f = false →
  populate w f v str tags
  = (v, Fails (EnvParseError str (tagOf tags "name") (errorString "field cannot be set"))).
Proof.
  intros Hexported. unfold populate, setIterableField, setField. rewrite Hexported.
  by destruct (kindOf (Type_ f)).
Qed.

(** X7: a field that is not exported.  When its type is a structure the
    loop body panics as soon as its tag is parsed, tagged or not, before any
    recursion.  Otherwise, when a non-empty value is resolved for it, the
    load fails with the error "field cannot be set" under the
    [EnvParseError] of that value and name, and the field keeps its value. *)
Theorem unexported_field w f v tagNames tags tagNames' :
  getTags f tagNames = (TagsOk tags, tagNames') → Exported f = false →
  (kindOf (Type_ f) = Struct →
     loadField w (loadStruct w) f v tagNames = (v, tagNames', Panics reflectUnexported))
  ∧ (kindOf (Type_ f) ≠ Struct →
     ∀ str, tagOf tags "name" ≠ ""%string → getField w tags = (str, None) →
            str ≠ ""%string →
     loadField w (loadStruct w) f v tagNames
     = (v, tagNames',
        Fails (EnvParseError str (tagOf tags "name") (errorString "field cannot be set")))).
Proof.
  intros Htags Hexported. split.
  - intros Hkind. unfold loadField. rewrite Htags.
    destruct (Type_ f); try done. by rewrite Hexported.
  - intros Hkind str Hname Hresolved Hstr.
    rewrite (loadField_plain w _ f v _ _ _ Htags Hkind), Hresolved.
    destruct (String.eqb_spec (tagOf tags "name") "") as [|_]; [done|].
    destruct (String.eqb_spec str "") as [|_]; [done|].
    by rewrite populate_unexported.
Qed.

(** A mutex in an unexported field, which carries no tag, makes the load
    panic; an unexported string field with a value in the environment makes
    it fail. *)
Lemma unexported_field_witness :
  loadField (mkWorld (environ [("HOST", "localhost")]) scanExample ∅)
    (loadStruct (mkWorld (environ [("HOST", "localhost")]) scanExample ∅))
    (mkField "mu" "" false (TStruct "sync.Mutex" [])) (VStruct []) ∅
  = (VStruct [], ∅, Panics reflectUnexported)
  ∧ loadField (mkWorld (environ [("HOST", "localhost")]) scanExample ∅)
      (loadStruct (mkWorld (environ [("HOST", "localhost")]) scanExample ∅))
      (mkField "host" "HOST" false tString) (VStr "") ∅
    = (VStr "", {["HOST"%string]},
       Fails (EnvParseError "localhost" "HOST" (errorString "field cannot be set"))).
Proof.
  split.
  - assert (getTags (mkField "mu" "" false (TStruct "sync.Mutex" [])) ∅ = (TagsOk ∅, ∅))
      as Hparsed by reflexivity.
    exact (proj1 (unexported_field _ _ (VStruct []) _ _ _ Hparsed eq_refl) eq_refl).
  - assert (getTags (mkField "host" "HOST" false tString) ∅
            = (TagsOk (<["name" := "HOST"]> ∅), {["HOST"%string]}))
      as Hparsed by (vm_compute; reflexivity).
    pose proof (proj2 (unexported_field
                         (mkWorld (environ [("HOST", "localhost")]) scanExample ∅)
                         _ (VStr "") _ _ _ Hparsed eq_refl)) as Hfails.
    specialize (Hfails ltac:(discriminate) "localhost"%string).
    assert (tagOf (<["name" := "HOST"]> ∅) "name" ≠ ""%string) as Hname
      by (vm_compute; discriminate).
    assert (getField (mkWorld (environ [("HOST", "localhost")]) scanExample ∅)
              (<["name" := "HOST"]> ∅) = ("localhost"%string, None)) as Hresolved
      by (vm_compute; reflexivity).
    specialize (Hfails Hname Hresolved ltac:(discriminate)).
    vm_compute in Hfails. vm_compute. exact Hfails.
Defined.

(** ** The errors of a load *)

Lemma tagLoop_error len index rest m tagNames e :
  (tagLoop len index rest m tagNames).1 = TagsErr e → ∃ item, e = duplicateTagError item.
Proof.
  revert index m tagNames.
  induction rest as [rest IH] using (induction_ltof1 _ (@length string)).
  unfold ltof in IH. intros index m tagNames.
  destruct rest as [|item rest]; [done|]. cbn [tagLoop].
  destruct (Nat.eqb index 0).
  { destruct (decide (item ∈ tagNames)); [intros [= <-]; eauto|].
    apply IH. simpl. lia. }
  destruct (String.eqb item "default").
  - destruct (m !! item); [intros [= <-]; eauto|].
    destruct rest as [|next rest]; [done|]. apply IH. simpl. lia.
  - apply IH. simpl. lia.
Qed.

Lemma getTags_error f tagNames e tagNames' :
  getTags f tagNames = (TagsErr e, tagNames') → ∃ item, e = duplicateTagError item.
Proof.
  intros Htags.
  apply (tagLoop_error (length (FieldsFunc (Tag f) SplitTags)) 0
           (FieldsFunc (Tag f) SplitTags) ∅ tagNames).
  unfold getTags, tagSliceToKeyMap in Htags. by rewrite Htags.
Qed.

Lemma setElements_error w elem tags strValues :
  ∀ elems i elems' e,
    setElements w elem elems i strValues tags = (elems', Fails e) →
    ∃ s cause, s ∈ strValues ∧ e = EnvParseError s (tagOf tags "name") cause.
Proof.
  induction strValues as [|s strValues IH]; intros elems i elems' e; [done|].
  cbn [setElements]. destruct (elems !! i) as [old|]; [|done].
  destruct (setField w elem true old s tags) as [new out] eqn:Hset.
  destruct out as [[err|]|p]; [| |done].
  - intros [= <- <-]. destruct (setField_error _ _ _ _ _ _ _ _ Hset) as [cause ->].
    exists s, cause. split; [set_solver | done].
  - intros Hloop. destruct (IH _ _ _ _ Hloop) as (s' & cause & Hin & ->).
    exists s', cause. split; [set_solver | done].
Qed.

Lemma setIterableField_error w t canSet v str tags v' e :
  setIterableField w t canSet v str tags = (v', Fails e) →
  ∃ value cause, e = EnvParseError value (tagOf tags "name") cause.
Proof.
  unfold setIterableField.
  destruct canSet; cbn [negb]; [|intros [= <- <-]; eauto].
  assert (∀ elem l strValues,
            (let '(elems, out) := setElements w elem l 0 strValues tags in
             (VList elems, out)) = (v', Fails e) →
            ∃ value cause, e = EnvParseError value (tagOf tags "name") cause) as Hloop.
  { intros elem l strValues.
    destruct (setElements w elem l 0 strValues tags) as [elems out] eqn:Hloop.
    intros [= <- ->].
    destruct (setElements_error _ _ _ _ _ _ _ _ Hloop) as (s & cause & _ & ->). eauto. }
  destruct t as [n k|n fs|n elem|n len elem]; try (intros [= <- <-]; eauto).
  - destruct (parseArrayString str) as [strValues|err]; [|intros [= <- <-]; eauto].
    cbn [Nat.ltb Nat.leb andb]. apply Hloop.
  - destruct (parseArrayString str) as [strValues|err]; [|intros [= <- <-]; eauto].
    destruct (Nat.ltb 0 len && Nat.ltb len (length strValues))%bool;
      [intros [= <- <-]; eauto | apply Hloop].
Qed.

Lemma populate_error w f v str tags v' e :
  populate w f v str tags = (v', Fails e) →
  ∃ value cause, e = EnvParseError value (tagOf tags "name") cause.
Proof.
  unfold populate.
  destruct (kindOf (Type_ f)); try apply setIterableField_error.
  all: intros Hset; destruct (setField_error _ _ _ _ _ _ _ _ Hset) as [cause ->]; eauto.
Qed.

Lemma getField_error w tags str err :
  getField w tags = (str, Some err) → err = EnvNotFoundError (tagOf tags "name").
Proof.
  unfold getField.
  destruct (negb (String.eqb (Getenv w (tagOf tags "name")) "")); [done|].
  destruct (tags !! "default"%string); [done|].
  destruct (tags !! "optional"%string); [done|]. by intros [= <- <-].
Qed.

Lemma loadField_error w recurse f v tagNames v' tagNames' e :
  (∀ v tn v' tn' e,
     kindOf (Type_ f) = Struct →
     recurse (Type_ f) v tn = (v', tn', Fails e) → loadError e) →
  loadField w recurse f v tagNames = (v', tagNames', Fails e) → loadError e.
Proof.
  intros Hrec.
  destruct (getTags f tagNames) as [[tags|err|p] tn1] eqn:Htags.
  - destruct (decide (kindOf (Type_ f) = Struct)) as [Hkind|Hkind].
    + unfold loadField. rewrite Htags.
      destruct (Type_ f) as [n k|n inner|n elem|n len elem] eqn:Ht; try done.
      destruct (Exported f); cbn [negb]; [|done].
      destruct (recurse (TStruct n inner) v tn1) as [[v2 tn2] out] eqn:Hcall.
      destruct out as [[err|]|p]; [|done..].
      destruct inner as [|f0 inner]; [done|]. intros [= <- <- <-].
      cbn. by eapply Hrec.
    + rewrite (loadField_plain w recurse f v _ _ _ Htags Hkind).
      destruct (String.eqb_spec (tagOf tags "name") "") as [|Hname]; [done|].
      destruct (getField w tags) as [str [err|]] eqn:Hresolved.
      * intros [= <- <- <-]. by rewrite (getField_error _ _ _ _ Hresolved).
      * destruct (String.eqb str ""); [done|].
        destruct (populate w f v str tags) as [v2 out] eqn:Hpop. cbn.
        intros [= <- <- ->].
        by destruct (populate_error _ _ _ _ _ _ _ Hpop) as (value & cause & ->).
  - unfold loadField. rewrite Htags. intros [= <- <- <-].
    by destruct (getTags_error _ _ _ _ Htags) as [item ->].
  - unfold loadField. by rewrite Htags.
Qed.

Lemma loadFields_error w recurse fields :
  Forall (λ f, ∀ v tn v' tn' e,
            kindOf (Type_ f) = Struct →
            recurse (Type_ f) v tn = (v', tn', Fails e) → loadError e) fields →
  ∀ vals tagNames vals' tagNames' e,
    loadFields w recurse fields vals tagNames = (vals', tagNames', Fails e) → loadError e.
Proof.
  induction 1 as [|f fields Hf _ IH]; intros vals tagNames vals' tagNames' e; [done|].
  cbn [loadFields].
  destruct (loadField w recurse f (fieldValue f vals) tagNames) as [[v1 tn1] out] eqn:Hfield.
  destruct out as [[err|]|p]; [| |done].
  - intros [= <- <- <-]. by eapply loadField_error.
  - destruct (loadFields w recurse fields (tl vals) tn1) as [[vals2 tn2] out2] eqn:Hrest.
    intros [= <- <- ->]. by eapply IH.
Qed.

Lemma loadStruct_error w t :
  ∀ v tagNames v' tagNames' e,
    kindOf t = Struct →
    loadStruct w t v tagNames = (v', tagNames', Fails e) → loadError e.
Proof.
  induction t as [n k|n fields IH|n el _|n l el _] using rtype_nested_ind;
    intros v tagNames v' tagNames' e Hkind; try done.
  cbn [loadStruct].
  destruct (loadFields w (loadStruct w) fields (fieldsOf v) tagNames)
    as [[vals tn] out] eqn:Hloop.
  intros [= <- <- ->]. by eapply loadFields_error.
Qed.

(** X8: the errors [LoadEnv] returns.  Besides "config must be a pointer to
    a struct", an error of [LoadEnv] is an [EnvNotFoundError] or an
    [EnvParseError] with a non-empty name, or a duplicate-tag error under
    the name of the field being read, or one of these under the wrappers of
    the nested loads; when the argument is a pointer to a structure it is
    never the first one. *)
Theorem LoadEnv_errors w c tagNames c' tagNames' e :
  LoadEnv w c tagNames = (c', tagNames', Fails e) →
  (e = errorString "config must be a pointer to a struct"
   ∧ (configKind c ≠ Pointer ∨ elemKind c ≠ Struct) ∧ c' = c ∧ tagNames' = tagNames)
  ∨ (loadError e ∧ configKind c = Pointer ∧ elemKind c = Struct).
Proof.
  unfold LoadEnv, isKind.
  destruct (decide (configKind c = Pointer)) as [Hptr|Hptr].
  2:{ rewrite bool_decide_eq_false_2 by done. intros [= <- <- <-]. left. eauto. }
  destruct (decide (elemKind c = Struct)) as [Hstruct|Hstruct].
  2:{ rewrite (bool_decide_eq_false_2 (elemKind c = Struct)) by done.
      rewrite orb_true_r. intros [= <- <- <-]. left. eauto. }
  rewrite !bool_decide_eq_true_2 by done. cbn [negb orb].
  destruct c as [|t v|t [v|]]; try done.
  destruct (loadStruct w t v tagNames) as [[v2 tn2] out] eqn:Hload.
  intros [= <- <- ->]. right. split; [|done]. by eapply loadStruct_error.
Qed.

Lemma LoadEnv_errors_witness :
  loadError
    (nestedError "ParseErr"
       (EnvParseError "k=v" "PARSE_EMBEDDED_ERR"
          (errorString "can't scan type: *goloadenv.CustomMapType")))
  ∧ configKind (PointerTo TestConfig (Some (zero TestConfig))) = Pointer
  ∧ elemKind (PointerTo TestConfig (Some (zero TestConfig))) = Struct.
Proof.
  assert (LoadEnv
            (mkWorld (environ (("PARSE_EMBEDDED_ERR", "k=v") :: testEnv)) scanExample ∅)
            (PointerTo TestConfig (Some (zero TestConfig))) ∅
          = (PointerTo TestConfig
               (Some (VStruct [VStr "localhost"; VInt 8080; VStr ""; VStr "default";
                               VStruct [VStr "localhost"]; VStruct [VNil]; VNil])),
             {["HOST"; "PORT"; "OPTIONAL"; "DEFAULT"; "DB_HOST"; "PARSE_EMBEDDED_ERR"]},
             Fails (nestedError "ParseErr"
                      (EnvParseError "k=v" "PARSE_EMBEDDED_ERR"
                         (errorString "can't scan type: *goloadenv.CustomMapType")))))
    as Hload by (vm_compute; reflexivity).
  destruct (LoadEnv_errors _ _ _ _ _ _ Hload) as [[Heq _]|Herr];
    [discriminate Heq | exact Herr].
Defined.

(** ** The names a successful load has read *)

Lemma getTags_ok_registry f tagNames tags tagNames' :
  getTags f tagNames = (TagsOk tags, tagNames') →
  match directiveName f with
  | Some N => N ∉ tagNames ∧ tagNames' = {[N]} ∪ tagNames
  | None => tagNames' = tagNames
  end.
Proof.
  unfold getTags, directiveName.
  destruct (FieldsFunc (Tag f) SplitTags) as [|name opts]; [by intros [= <- <-]|].
  intros Htags. cbn. destruct (decide (name ∈ tagNames)) as [Hin|Hfresh].
  - by rewrite tagSliceToKeyMap_duplicate in Htags.
  - split; [done|]. rewrite <- (tagSliceToKeyMap_fresh name opts tagNames Hfresh).
    by rewrite Htags.
Qed.

(** The loop body on a field it is done with: the registry changes by the
    tag of the field and, for a structure, by the nested load. *)
Lemma loadField_nil_registry w f v tagNames v' tagNames' :
  loadField w (loadStruct w) f v tagNames = (v', tagNames', Nil) →
  ∃ tags tn1,
    getTags f tagNames = (TagsOk tags, tn1)
    ∧ (kindOf (Type_ f) = Struct →
         loadStruct w (Type_ f) v tn1 = (v', tagNames', Nil))
    ∧ (kindOf (Type_ f) ≠ Struct → tagNames' = tn1).
Proof.
  unfold loadField.
  destruct (getTags f tagNames) as [[tags|err|p] tn1]; [|done..].
  intros Hbody. exists tags, tn1. split; [done|].
  destruct (Type_ f) as [n k|n inner|n e|n l e] eqn:Ht.
  2:{ destruct (Exported f); cbn [negb] in Hbody; [|done].
      destruct (loadStruct w (TStruct n inner) v tn1) as [[v2 tn2] out].
      destruct out as [[err|]|p]; [by destruct inner| |done].
      injection Hbody as <- <-. by split. }
  all: split; [done|]; intros _;
    destruct (String.eqb (tagOf tags "name") ""); [by injection Hbody as <- <-|];
    destruct (getField w tags) as [str [err|]]; [done|];
    destruct (String.eqb str ""); [by injection Hbody as <- <-|];
    destruct (populate w f v str tags); by injection Hbody as <- <-.
Qed.

Lemma directiveNames_struct name f fields :
  directiveNames (TStruct name (f :: fields))
  = (match directiveName f with Some N => [N] | None => [] end)
    ++ directiveNames (Type_ f) ++ directiveNames (TStruct name fields).
Proof.
  unfold directiveNames. cbn [declaredFields flat_map].
  rewrite omap_app. cbn [omap app list_omap]. by destruct (directiveName f).
Qed.

Lemma loadFields_names w name fields :
  Forall (λ f, ∀ v tn v' tn',
            loadStruct w (Type_ f) v tn = (v', tn', Nil) →
            NoDup (directiveNames (Type_ f))
            ∧ (∀ N, N ∈ directiveNames (Type_ f) → N ∉ tn)
            ∧ tn' = tn ∪ list_to_set (directiveNames (Type_ f))) fields →
  ∀ vals tagNames vals' tagNames',
    loadFields w (loadStruct w) fields vals tagNames = (vals', tagNames', Nil) →
    NoDup (directiveNames (TStruct name fields))
    ∧ (∀ N, N ∈ directiveNames (TStruct name fields) → N ∉ tagNames)
    ∧ tagNames' = tagNames ∪ list_to_set (directiveNames (TStruct name fields)).
Proof.
  induction 1 as [|f fields Hf _ IH]; intros vals tagNames vals' tagNames' Hload.
  { injection Hload as <- <-. cbn. split; [constructor|]. set_solver. }
  cbn [loadFields] in Hload.
  destruct (loadField w (loadStruct w) f (fieldValue f vals) tagNames)
    as [[v1 tn1] out] eqn:Hfield.
  destruct out as [[err|]|p]; [done| |done].
  destruct (loadFields w (loadStruct w) fields (tl vals) tn1)
    as [[vals2 tn2] out2] eqn:Hrest.
  injection Hload as <- <- ->.
  destruct (IH _ _ _ _ Hrest) as (Hnodup & Hfresh & ->).
  apply loadField_nil_registry in Hfield as (tags & tn0 & Htags & Hstruct & Hplain).
  apply getTags_ok_registry in Htags.
  assert (NoDup (directiveNames (Type_ f))
          ∧ (∀ N, N ∈ directiveNames (Type_ f) → N ∉ tn0)
          ∧ tn1 = tn0 ∪ list_to_set (directiveNames (Type_ f))) as (Hnodup1 & Hfresh1 & ->).
  { destruct (decide (kindOf (Type_ f) = Struct)) as [Hkind|Hkind].
    - by eapply Hf, Hstruct.
    - rewrite (Hplain Hkind).
      replace (directiveNames (Type_ f)) with (@nil string) by (by destruct (Type_ f)).
      split; [constructor|]. set_solver. }
  rewrite directiveNames_struct.
  destruct (directiveName f) as [N0|]; [destruct Htags as [Hfresh0 ->]|subst tn0].
  - split; [|split].
    + cbn [app]. apply NoDup_cons. split.
      * rewrite elem_of_app. intros [Hin|Hin]; [apply Hfresh1 in Hin|apply Hfresh in Hin];
          set_solver.
      * apply NoDup_app. split; [done|]. split; [|done].
        intros N Hin1 Hin2. apply Hfresh in Hin2. set_solver.
    + intros N. cbn [app]. rewrite elem_of_cons, elem_of_app.
      intros [->|[Hin|Hin]]; [done|apply Hfresh1 in Hin|apply Hfresh in Hin]; set_solver.
    + cbn [app]. rewrite list_to_set_cons, list_to_set_app_L. set_solver.
  - split; [|split].
    + cbn [app]. apply NoDup_app. split; [done|]. split; [|done].
      intros N Hin1 Hin2. apply Hfresh in Hin2. set_solver.
    + intros N. cbn [app]. rewrite elem_of_app.
      intros [Hin|Hin]; [apply Hfresh1 in Hin|apply Hfresh in Hin]; set_solver.
    + cbn [app]. rewrite list_to_set_app_L. set_solver.
Qed.

Lemma loadStruct_names w t :
  ∀ v tagNames v' tagNames',
    loadStruct w t v tagNames = (v', tagNames', Nil) →
    NoDup (directiveNames t)
    ∧ (∀ N, N ∈ directiveNames t → N ∉ tagNames)
    ∧ tagNames' = tagNames ∪ list_to_set (directiveNames t).
Proof.
  induction t as [n k|n fields IH|n e _|n l e _] using rtype_nested_ind;
    intros v tagNames v' tagNames' Hload; try done.
  cbn [loadStruct] in Hload.
  destruct (loadFields w (loadStruct w) fields (fieldsOf v) tagNames)
    as [[vals tn] out] eqn:Hloop.
  injection Hload as <- <- ->. by eapply loadFields_names.
Qed.

Lemma LoadEnv_nil_inv w t v tagNames c' tagNames' :
  LoadEnv w (PointerTo t (Some v)) tagNames = (c', tagNames', Nil) →
  ∃ v', loadStruct w t v tagNames = (v', tagNames', Nil).
Proof.
  unfold LoadEnv.
  destruct (negb (isKind (configKind (PointerTo t (Some v))) Pointer)
            || negb (isKind (elemKind (PointerTo t (Some v))) Struct))%bool; [done|].
  destruct (loadStruct w t v tagNames) as [[v2 tn2] out].
  intros [= <- <- ->]. eauto.
Qed.

(** X9: when [LoadEnv] returns no error, the names of the directives of
    the structure, nested structures included, are pairwise distinct, none
    of them was in the registry before the call, and the registry after the
    call is the one before with exactly these names added. *)
Theorem successful_load_names w t v tagNames c' tagNames' :
  LoadEnv w (PointerTo t (Some v)) tagNames = (c', tagNames', Nil) →
  NoDup (directiveNames t)
  ∧ (∀ N, N ∈ directiveNames t → N ∉ tagNames)
  ∧ tagNames' = tagNames ∪ list_to_set (directiveNames t).
Proof.
  intros Hload. apply LoadEnv_nil_inv in Hload as [v' Hload].
  by eapply loadStruct_names.
Qed.

Lemma successful_load_names_witness :
  NoDup (directiveNames TestConfig)
  ∧ (∀ N, N ∈ directiveNames TestConfig → N ∉ (∅ : gset string))
  ∧ ({["HOST"; "PORT"; "OPTIONAL"; "DEFAULT"; "DB_HOST"; "PARSE_EMBEDDED_ERR"; "PARSE_ERR"]}
       : gset string)
    = ∅ ∪ list_to_set (directiveNames TestConfig).
Proof.
  assert (LoadEnv
            (mkWorld (environ [("HOST", "localhost"); ("PORT", "8080")]) scanExample ∅)
            (PointerTo TestConfig (Some (zero TestConfig))) ∅
          = (PointerTo TestConfig
               (Some (VStruct [VStr "localhost"; VInt 8080; VStr ""; VStr "default";
                               VStruct [VStr "localhost"]; VStruct [VNil]; VNil])),
             {["HOST"; "PORT"; "OPTIONAL"; "DEFAULT"; "DB_HOST"; "PARSE_EMBEDDED_ERR";
               "PARSE_ERR"]},
             Nil)) as Hload by (vm_compute; reflexivity).
  exact (successful_load_names _ _ _ _ _ _ Hload).
Defined.

(** X10: a structure type with at least one directive cannot be loaded
    twice in a process: once a load of it has returned no error, every later
    load of the same type, whatever the values, the environment and the loads
    in between, returns an error or panics. *)
Theorem second_load_does_not_succeed w1 t v1 tagNames c1 tagNames1 tagNames2 w2 v2 :
  LoadEnv w1 (PointerTo t (Some v1)) tagNames = (c1, tagNames1, Nil) →
  directiveNames t ≠ [] →
  rtc afterLoad tagNames1 tagNames2 →
  (∃ e, (LoadEnv w2 (PointerTo t (Some v2)) tagNames2).2 = Fails e)
  ∨ (∃ p, (LoadEnv w2 (PointerTo t (Some v2)) tagNames2).2 = Panics p).
Proof.
  intros Hfirst Hnames Hlater.
  apply LoadEnv_nil_inv in Hfirst as [v1' Hfirst].
  apply loadStruct_names in Hfirst as (_ & _ & ->).
  apply afterLoad_registry in Hlater.
  destruct (LoadEnv w2 (PointerTo t (Some v2)) tagNames2) as [[c2 tn2] out] eqn:Hsecond.
  destruct out as [[e|]|p]; [eauto | | eauto].
  apply LoadEnv_nil_inv in Hsecond as [v2' Hsecond].
  apply loadStruct_names in Hsecond as (_ & Hfresh & _).
  destruct (directiveNames t) as [|N names]; [done|].
  exfalso. apply (Hfresh N); set_solver.
Qed.

Lemma second_load_does_not_succeed_witness :
  (∃ e, (LoadEnv (mkWorld (environ testEnv) scanExample ∅)
           (PointerTo TestConfig (Some (zero TestConfig)))
           (loadZero testEnv TestConfig).1.2).2 = Fails e)
  ∨ (∃ p, (LoadEnv (mkWorld (environ testEnv) scanExample ∅)
             (PointerTo TestConfig (Some (zero TestConfig)))
             (loadZero testEnv TestConfig).1.2).2 = Panics p).
Proof.
  assert (LoadEnv (mkWorld (environ testEnv) scanExample ∅)
            (PointerTo TestConfig (Some (zero TestConfig))) ∅
          = ((loadZero testEnv TestConfig).1.1, (loadZero testEnv TestConfig).1.2, Nil))
    as Hfirst by (vm_compute; reflexivity).
  assert (directiveNames TestConfig ≠ []) as Hnames by (vm_compute; discriminate).
  exact (second_load_does_not_succeed _ _ _ _ _ _ _
           (mkWorld (environ testEnv) scanExample ∅) (zero TestConfig)
           Hfirst Hnames (rtc_refl _ _)).
Defined.

(** ** More on collections *)

Lemma append_nil_r (s : string) : (s ++ "")%string = s.
Proof.
  induction s as [|c s IH]; [done|].
  change (String c (s ++ "") = String c s)%string. by f_equal.
Qed.

Lemma splitAux_join sep s cur :
  Join (splitAux sep s cur) (String sep "") = (cur ++ s)%string.
Proof.
  revert cur. induction s as [|c s IH]; intros cur; cbn [splitAux].
  - cbn. by rewrite append_nil_r.
  - destruct (Ascii.eqb_spec c sep) as [->|Hc].
    + destruct (splitAux_cons sep s "") as (first & rest & Hsplit).
      specialize (IH ""%string). rewrite Hsplit in IH |- *.
      change (Join (cur :: first :: rest) (String sep ""))
        with (cur ++ String sep "" ++ Join (first :: rest) (String sep ""))%string.
      by rewrite IH.
    + rewrite IH. by rewrite append_assoc.
Qed.

Lemma splitAux_tokens sep s cur :
  allChars (λ c, negb (Ascii.eqb c sep)) cur = true →
  Forall (λ token, allChars (λ c, negb (Ascii.eqb c sep)) token = true)
    (splitAux sep s cur).
Proof.
  revert cur. induction s as [|c s IH]; intros cur Hcur; cbn [splitAux].
  - by constructor.
  - destruct (Ascii.eqb c sep) eqn:Hc.
    + constructor; [done|]. by apply IH.
    + apply IH. rewrite allChars_app, Hcur. cbn. by rewrite Hc.
Qed.

Lemma splitAux_prefix sep s rest cur :
  allChars (λ c, negb (Ascii.eqb c sep)) s = true →
  splitAux sep (s ++ rest) cur = splitAux sep rest (cur ++ s).
Proof.
  revert cur. induction s as [|c s IH]; intros cur Hs.
  - by rewrite append_nil_r.
  - cbn [allChars] in Hs. apply andb_true_iff in Hs as [Hc Hs].
    change (String c s ++ rest)%string with (String c (s ++ rest)).
    cbn [splitAux]. destruct (Ascii.eqb c sep); [done|].
    rewrite IH by done. by rewrite append_assoc.
Qed.

Lemma Split_Join elems :
  elems ≠ [] → Forall (λ s, commaFree s = true) elems →
  Split (Join elems ",") "," = elems.
Proof.
  intros Hne Helems. induction Helems as [|e elems He Helems IH]; [done|].
  unfold Split in *. destruct elems as [|e2 elems].
  - cbn [Join]. rewrite <- (append_nil_r e) at 1.
    by rewrite splitAux_prefix by done.
  - change (Join (e :: e2 :: elems) ",")
      with (e ++ String "," (Join (e2 :: elems) ","))%string.
    rewrite splitAux_prefix by done. cbn [splitAux]. rewrite Ascii.eqb_refl.
    by rewrite IH.
Qed.

Lemma parseArrayString_cons str strValues :
  parseArrayString str = inl strValues → ∃ first rest, strValues = first :: rest.
Proof.
  unfold parseArrayString.
  destruct (Nat.ltb (String.length str) 2
            || negb (String.eqb (slice str 0 1) "[")
               && negb (String.eqb (slice str (String.length str - 1)
                                       (String.length str)) "]"))%bool; [done|].
  intros [= <-]. apply Split_cons.
Qed.

(** X11: lists between brackets.  What [parseArrayString] reads between
    the brackets is never the empty list, its strings hold no comma, and
    joined with commas they give back what stands between the brackets; a
    non-empty list of strings without commas, joined with commas and put
    between brackets, is read back as it is. *)
Theorem parseArrayString_roundtrip :
  (∀ body, ∃ strValues,
     parseArrayString ("[" ++ body ++ "]") = inl strValues
     ∧ strValues ≠ []
     ∧ Forall (λ s, commaFree s = true) strValues
     ∧ Join strValues "," = body)
  ∧ (∀ elems,
       elems ≠ [] → Forall (λ s, commaFree s = true) elems →
       parseArrayString ("[" ++ Join elems "," ++ "]") = inl elems).
Proof.
  split.
  - intros body. exists (Split body ","). rewrite parseArrayString_bracketed.
    split; [done|]. split; [|split].
    + destruct (Split_cons body ",") as (first & rest & ->). done.
    + by apply splitAux_tokens.
    + apply (splitAux_join "," body "").
  - intros elems Hne Helems. rewrite parseArrayString_bracketed. f_equal.
    by apply Split_Join.
Qed.

Lemma parseArrayString_roundtrip_witness :
  parseArrayString ("[" ++ Join ["eu-west"; "eu-north"]%string "," ++ "]")
  = inl ["eu-west"; "eu-north"]%string.
Proof.
  apply (proj2 parseArrayString_roundtrip ["eu-west"; "eu-north"]%string).
  - discriminate.
  - repeat constructor.
Defined.

Lemma setElements_length w elem tags strValues :
  ∀ elems i, length (setElements w elem elems i strValues tags).1 = length elems.
Proof.
  induction strValues as [|s strValues IH]; intros elems i; [done|].
  cbn [setElements]. destruct (elems !! i) as [old|]; [|done].
  destruct (setField w elem true old s tags) as [new out].
  destruct out as [[err|]|p]; cbn; rewrite ?IH; by rewrite length_insert.
Qed.

(** X12: a slice that [setIterableField] has loaded without error is never
    empty: it has one element per string between the commas, and there is at
    least one such string, be it the empty one of the input "[]". *)
Theorem loaded_slice_is_not_empty w name elem canSet old str tags v' :
  setIterableField w (TSlice name elem) canSet old str tags = (v', Nil) →
  ∃ elems strValues,
    v' = VList elems ∧ parseArrayString str = inl strValues
    ∧ length elems = length strValues ∧ 0 < length elems.
Proof.
  unfold setIterableField. destruct canSet; cbn [negb]; [|done].
  destruct (parseArrayString str) as [strValues|err] eqn:Hparse; [|done].
  cbn [Nat.ltb Nat.leb andb elemsOf].
  pose proof (setElements_length w elem tags strValues
                (replicate (length strValues) (zero elem)) 0) as Hlen.
  destruct (setElements w elem (replicate (length strValues) (zero elem)) 0
              strValues tags) as [elems out].
  intros [= <- ->]. exists elems, strValues.
  cbn in Hlen. rewrite length_replicate in Hlen.
  destruct (parseArrayString_cons _ _ Hparse) as (first & rest & ->).
  repeat split; [done|]. rewrite Hlen. simpl. lia.
Qed.

Lemma loaded_slice_is_not_empty_witness :
  ∃ elems strValues,
    VList [VInt 7] = VList elems ∧ parseArrayString "[7]" = inl strValues
    ∧ length elems = length strValues ∧ 0 < length elems.
Proof.
  assert (setIterableField (mkWorld (environ []) scanExample ∅) (TSlice "[]int" tInt)
            true (VList []) "[7]" (<["name" := "PORTS"]> ∅)
          = (VList [VInt 7], Nil)) as Hloaded by (vm_compute; reflexivity).
  exact (loaded_slice_is_not_empty _ _ _ _ _ _ _ _ Hloaded).
Defined.

(** ** Loads that do not panic *)

Lemma setField_returns w t canSet v str tags :
  convertersTyped w → ∃ err, (setField w t canSet v str tags).2 = Returns err.
Proof.
  intros Htyped. unfold setField. destruct canSet; cbn [negb]; [|eauto].
  destruct (envTypes w !! typeName t) as [unmarshaller|] eqn:Hreg.
  - specialize (Htyped _ _ str Hreg).
    destruct (unmarshaller str) as [[[dyn x]|] [err|]]; try done; eauto.
    subst dyn. rewrite String.eqb_refl. eauto.
  - destruct (Sscan w t str v) as [v' [err|]]; eauto.
Qed.

Lemma setElements_returns w elem tags strValues :
  convertersTyped w →
  ∀ elems i,
    i + length strValues ≤ length elems →
    ∃ err, (setElements w elem elems i strValues tags).2 = Returns err.
Proof.
  intros Htyped. induction strValues as [|s strValues IH]; intros elems i Hlen; [eauto|].
  cbn [setElements]. cbn [length] in Hlen.
  destruct (lookup_lt_is_Some_2 elems i ltac:(lia)) as [old ->].
  destruct (setField_returns w elem true old s tags Htyped) as [err Hset].
  destruct (setField w elem true old s tags) as [new out]. cbn in Hset. subst out.
  destruct err as [e|]; [eauto|].
  apply IH. rewrite length_insert. lia.
Qed.

Lemma setIterableField_returns w t canSet v str tags :
  convertersTyped w →
  match t with
  | TArray _ len _ => 0 < len ∧ length (elemsOf v) = len
  | _ => True
  end →
  ∃ err, (setIterableField w t canSet v str tags).2 = Returns err.
Proof.
  intros Htyped Harray. unfold setIterableField.
  destruct canSet; cbn [negb]; [|eauto].
  destruct t as [n k|n fs|n elem|n len elem]; [eauto|eauto| |].
  - destruct (parseArrayString str) as [strValues|err]; [|eauto].
    cbn [Nat.ltb Nat.leb andb elemsOf].
    destruct (setElements_returns w elem tags strValues Htyped
                (replicate (length strValues) (zero elem)) 0
                ltac:(rewrite length_replicate; lia)) as [err Hloop].
    destruct (setElements w elem (replicate (length strValues) (zero elem)) 0
                strValues tags) as [elems out]. eauto.
  - destruct Harray as [Hlen Hfilled].
    destruct (parseArrayString str) as [strValues|err]; [|eauto].
    replace (Nat.ltb 0 len) with true by (symmetry; by apply Nat.ltb_lt).
    cbn [andb]. destruct (Nat.ltb_spec len (length strValues)) as [|Hcount]; [eauto|].
    destruct (setElements_returns w elem tags strValues Htyped (elemsOf v) 0
                ltac:(lia)) as [err Hloop].
    destruct (setElements w elem (elemsOf v) 0 strValues tags) as [elems out]. eauto.
Qed.

Lemma populate_returns w f v str tags :
  convertersTyped w →
  match Type_ f with
  | TArray _ len _ => 0 < len ∧ length (elemsOf v) = len
  | _ => True
  end →
  ∃ err, (populate w f v str tags).2 = Returns err.
Proof.
  intros Htyped Harray. unfold populate.
  destruct (kindOf (Type_ f));
    (by apply setIterableField_returns) || by apply setField_returns.
Qed.

Lemma getTags_complete f tagNames p :
  optionsComplete (tl (FieldsFunc (Tag f) SplitTags)) = true →
  (getTags f tagNames).1 ≠ TagsPanic p.
Proof.
  unfold getTags. destruct (FieldsFunc (Tag f) SplitTags) as [|name opts]; [done|].
  cbn [tl]. intros Hcomplete. unfold tagSliceToKeyMap. cbn [tagLoop Nat.eqb].
  destruct (decide (name ∈ tagNames)); [done|]. by apply tagLoop_complete.
Qed.

Lemma loadFields_returns w name fields :
  convertersTyped w →
  Forall (λ f, panicFree (Type_ f) →
               ∀ v tn, arraysFilled (Type_ f) v →
                       ∃ err, (loadStruct w (Type_ f) v tn).2 = Returns err) fields →
  panicFree (TStruct name fields) →
  ∀ vals tagNames,
    arraysFilled (TStruct name fields) (VStruct vals) →
    ∃ err, (loadFields w (loadStruct w) fields vals tagNames).2 = Returns err.
Proof.
  intros Htyped. induction 1 as [|f fields Hf _ IH]; intros Hsafe vals tagNames Hfilled;
    [cbn; eauto|].
  destruct Hsafe as [(Hcomplete & Hkind & Hinner) Hsafe].
  destruct Hfilled as [Hvalue Hfilled].
  assert (∃ err, (loadField w (loadStruct w) f (fieldValue f vals) tagNames).2
                 = Returns err) as [err Hfield].
  { pose proof (getTags_complete f tagNames) as Htags.
    destruct (getTags f tagNames) as [[tags|e|p] tn1] eqn:Hparsed.
    - destruct (decide (kindOf (Type_ f) = Struct)) as [Hstruct|Hplain].
      + unfold loadField. rewrite Hparsed.
        destruct (Type_ f) as [n k|n inner|n elem|n len elem] eqn:Ht; try done.
        rewrite Hkind. cbn [negb].
        destruct (Hf Hinner (fieldValue f vals) tn1 Hvalue) as [err Hcall].
        destruct (loadStruct w (TStruct n inner) (fieldValue f vals) tn1)
          as [[v2 tn2] out] eqn:Hload.
        cbn [snd] in Hcall. subst out. destruct err as [e|]; [|eauto].
        destruct inner as [|f0 inner]; [|eauto].
        by cbn in Hload.
      + rewrite (loadField_plain w _ f _ _ _ _ Hparsed Hplain).
        destruct (String.eqb (tagOf tags "name") ""); [eauto|].
        destruct (getField w tags) as [str [e|]]; [eauto|].
        destruct (String.eqb str ""); [eauto|]. cbn.
        apply populate_returns; [done|].
        destruct (Type_ f) as [n k|n inner|n elem|n len elem]; try done.
    - unfold loadField. rewrite Hparsed. eauto.
    - by destruct (Htags p Hcomplete). }
  cbn [loadFields].
  destruct (loadField w (loadStruct w) f (fieldValue f vals) tagNames) as [[v1 tn1] out].
  cbn in Hfield. subst out. destruct err as [e|]; [eauto|].
  destruct (IH Hsafe (tl vals) tn1 Hfilled) as [err Hrest].
  destruct (loadFields w (loadStruct w) fields (tl vals) tn1) as [[vals2 tn2] out2].
  eauto.
Qed.

Lemma loadStruct_returns w t :
  convertersTyped w → panicFree t →
  ∀ v tagNames, arraysFilled t v → ∃ err, (loadStruct w t v tagNames).2 = Returns err.
Proof.
  intros Htyped.
  induction t as [n k|n fields IH|n el _|n l el _] using rtype_nested_ind;
    intros Hsafe v tagNames Hfilled; [cbn; eauto| |cbn; eauto..].
  cbn [loadStruct].
  destruct (loadFields_returns w n fields Htyped IH Hsafe (fieldsOf v) tagNames)
    as [err Hloop]; [exact Hfilled|].
  destruct (loadFields w (loadStruct w) fields (fieldsOf v) tagNames) as [[vals tn] out].
  eauto.
Qed.

(** X13: [LoadEnv] returns, with an error or without, and does not panic,
    when in every tag of the structure each [default] keyword has its value,
    every field whose type is a structure is exported, no array field has
    length zero (nested structures included), every array of the value has
    the length of its type, and every registered converter returns an error
    or a value of its type. *)
Theorem LoadEnv_returns w t v tagNames :
  convertersTyped w → panicFree t → arraysFilled t v →
  ∃ err, (LoadEnv w (PointerTo t (Some v)) tagNames).2 = Returns err.
Proof.
  intros Htyped Hsafe Hfilled. unfold LoadEnv.
  destruct (negb (isKind (configKind (PointerTo t (Some v))) Pointer)
            || negb (isKind (elemKind (PointerTo t (Some v))) Struct))%bool; [eauto|].
  destruct (loadStruct_returns w t Htyped Hsafe v tagNames Hfilled) as [err Hload].
  destruct (loadStruct w t v tagNames) as [[v2 tn2] out]. eauto.
Qed.

(** An array that is filled, a converter that is called and a nested
    structure that is read: the load returns, here without error. *)
Lemma LoadEnv_returns_witness :
  LoadEnv (RegisterEnvType "slog.Level" unmarshalLevel
             (mkWorld (environ [("INT_ARRAY", "[1,2,3]"); ("LOG_LEVEL", "WARN")])
                scanExample ∅))
    (PointerTo serviceStruct (Some (zero serviceStruct))) ∅
  = (PointerTo serviceStruct
       (Some (VStruct [VList [VInt 1; VInt 2; VInt 3; VInt 0; VInt 0]; VInt 4;
                       VStruct [VStr "localhost"]])),
     {["INT_ARRAY"; "LOG_LEVEL"; "DB_HOST"]}, Nil)
  ∧ ∃ err,
      (LoadEnv (RegisterEnvType "slog.Level" unmarshalLevel
                  (mkWorld (environ [("INT_ARRAY", "[1,2,3]"); ("LOG_LEVEL", "WARN")])
                     scanExample ∅))
         (PointerTo serviceStruct (Some (zero serviceStruct))) ∅).2
      = Returns err.
Proof.
  split; [by vm_compute|].
  assert (convertersTyped
            (RegisterEnvType "slog.Level" unmarshalLevel
               (mkWorld (environ [("INT_ARRAY", "[1,2,3]"); ("LOG_LEVEL", "WARN")])
                  scanExample ∅))) as Htyped.
  { intros T unmarshaller str Hreg. cbn [RegisterEnvType envTypes] in Hreg.
    apply lookup_insert_Some in Hreg as [[<- <-]|[_ Hreg]];
      [|by rewrite lookup_empty in Hreg].
    unfold unmarshalLevel.
    repeat (destruct (String.eqb str _); [done|]). done. }
  assert (panicFree serviceStruct) as Hsafe
    by (vm_compute; repeat split; auto with arith).
  assert (arraysFilled serviceStruct (zero serviceStruct)) as Hfilled
    by (vm_compute; repeat split).
  exact (LoadEnv_returns _ _ _ ∅ Htyped Hsafe Hfilled).
Defined.

(** ** Registering a converter *)

Lemma setField_frame T conv w t canSet v str tags :
  typeName t ≠ T →
  setField (RegisterEnvType T conv w) t canSet v str tags
  = setField w t canSet v str tags.
Proof.
  intros Hother. unfold setField, RegisterEnvType. cbn [envTypes Sscan].
  by rewrite lookup_insert_ne.
Qed.

Lemma setElements_frame T conv w elem tags strValues :
  typeName elem ≠ T →
  ∀ elems i,
    setElements (RegisterEnvType T conv w) elem elems i strValues tags
    = setElements w elem elems i strValues tags.
Proof.
  intros Hother. induction strValues as [|s strValues IH]; intros elems i; [done|].
  cbn [setElements]. destruct (elems !! i) as [old|]; [|done].
  rewrite setField_frame by done.
  destruct (setField w elem true old s tags) as [new [[e|]|p]]; [done| |done].
  apply IH.
Qed.

Lemma populate_frame T conv w f v str tags :
  match Type_ f with
  | TStruct _ _ => True
  | TSlice _ elem | TArray _ _ elem => typeName elem ≠ T
  | TBasic name _ => name ≠ T
  end →
  kindOf (Type_ f) ≠ Struct →
  populate (RegisterEnvType T conv w) f v str tags = populate w f v str tags.
Proof.
  intros Hother Hplain. unfold populate.
  destruct (Type_ f) as [n k|n fs|n elem|n len elem]; [|done| |]; cbn [kindOf].
  - by apply setField_frame.
  - unfold setIterableField. destruct (negb (Exported f)); [done|].
    destruct (parseArrayString str) as [strValues|err]; [|done].
    cbn [Nat.ltb Nat.leb andb]. by rewrite setElements_frame.
  - unfold setIterableField. destruct (negb (Exported f)); [done|].
    destruct (parseArrayString str) as [strValues|err]; [|done].
    destruct (Nat.ltb 0 len && Nat.ltb len (length strValues))%bool; [done|].
    by rewrite setElements_frame.
Qed.

Lemma loadFields_frame T conv w name fields :
  Forall (λ f, T ∉ convertedTypes (Type_ f) →
               ∀ v tn, loadStruct (RegisterEnvType T conv w) (Type_ f) v tn
                       = loadStruct w (Type_ f) v tn) fields →
  T ∉ convertedTypes (TStruct name fields) →
  ∀ vals tagNames,
    loadFields (RegisterEnvType T conv w) (loadStruct (RegisterEnvType T conv w))
      fields vals tagNames
    = loadFields w (loadStruct w) fields vals tagNames.
Proof.
  induction 1 as [|f fields Hf _ IH]; intros Hother vals tagNames; [done|].
  cbn [convertedTypes flat_map] in Hother. rewrite elem_of_app in Hother.
  assert (loadField (RegisterEnvType T conv w) (loadStruct (RegisterEnvType T conv w))
            f (fieldValue f vals) tagNames
          = loadField w (loadStruct w) f (fieldValue f vals) tagNames) as Hfield.
  { destruct (getTags f tagNames) as [[tags|e|p] tn1] eqn:Hparsed.
    - destruct (decide (kindOf (Type_ f) = Struct)) as [Hstruct|Hplain].
      + unfold loadField. rewrite Hparsed.
        destruct (Type_ f) as [n k|n inner|n elem|n len elem]; try done.
        destruct (negb (Exported f)); [done|].
        rewrite Hf by (intros Hin; apply Hother; by left). done.
      + rewrite !(loadField_plain _ _ f _ _ _ _ Hparsed Hplain).
        destruct (String.eqb (tagOf tags "name") ""); [done|].
        change (getField (RegisterEnvType T conv w) tags) with (getField w tags).
        destruct (getField w tags) as [str [e|]]; [done|].
        destruct (String.eqb str ""); [done|].
        rewrite populate_frame; [done| |done].
        destruct (Type_ f) as [n k|n inner|n elem|n len elem]; [|done| |];
          intros Heq; apply Hother; left; rewrite <- Heq; cbn; set_solver.
    - unfold loadField. by rewrite Hparsed.
    - unfold loadField. by rewrite Hparsed. }
  cbn [loadFields]. rewrite Hfield.
  destruct (loadField w (loadStruct w) f (fieldValue f vals) tagNames)
    as [[v1 tn1] [[e|]|p]]; [done| |done].
  rewrite IH; [done|]. intros Hin. apply Hother. by right.
Qed.

Lemma loadStruct_frame T conv w t :
  T ∉ convertedTypes t →
  ∀ v tagNames,
    loadStruct (RegisterEnvType T conv w) t v tagNames = loadStruct w t v tagNames.
Proof.
  induction t as [n k|n fields IH|n el _|n l el _] using rtype_nested_ind;
    intros Hother v tagNames; [done| |done..].
  cbn [loadStruct]. by rewrite (loadFields_frame T conv w n fields IH Hother).
Qed.

(** X14: registering a converter for a type changes nothing in the load of
    a structure that has no field of that type, no slice or array field
    with elements of that type, and no nested structure with such a field
    (the fields whose own type is a structure do not count): the values
    stored, the names recorded and the error returned are the same as
    without the registration. *)
Theorem RegisterEnvType_frame T conv w t ov tagNames :
  T ∉ convertedTypes t →
  LoadEnv (RegisterEnvType T conv w) (PointerTo t ov) tagNames
  = LoadEnv w (PointerTo t ov) tagNames.
Proof.
  intros Hother. unfold LoadEnv.
  destruct (negb (isKind (configKind (PointerTo t ov)) Pointer)
            || negb (isKind (elemKind (PointerTo t ov)) Struct))%bool; [done|].
  destruct ov as [v|]; [|done]. by rewrite loadStruct_frame.
Qed.

Lemma RegisterEnvType_frame_witness :
  LoadEnv (RegisterEnvType "time.Time" unmarshalTime
             (mkWorld (environ testEnv) scanExample ∅))
    (PointerTo eventStruct (Some (zero eventStruct))) ∅
  = LoadEnv (mkWorld (environ testEnv) scanExample ∅)
      (PointerTo eventStruct (Some (zero eventStruct))) ∅.
Proof.
  assert ("time.Time" ∉ convertedTypes eventStruct) as Hother
    by (cbn; set_solver).
  exact (RegisterEnvType_frame "time.Time" unmarshalTime _ eventStruct _ ∅ Hother).
Defined.

(** ** The formatter *)

Lemma fold_max_name_bounds fields :
  ∀ maxLen,
    maxLen ≤ fold_left (λ maxLen f,
                          if Nat.ltb maxLen (String.length (Name f) + 1)
                          then String.length (Name f) + 1 else maxLen) fields maxLen
    ∧ Forall (λ f, String.length (Name f) + 1
                   ≤ fold_left (λ maxLen f,
                                  if Nat.ltb maxLen (String.length (Name f) + 1)
                                  then String.length (Name f) + 1 else maxLen)
                       fields maxLen) fields.
Proof.
  induction fields as [|f fields IH]; intros maxLen; [by split|].
  cbn [fold_left].
  destruct (IH (if Nat.ltb maxLen (String.length (Name f) + 1)
                then String.length (Name f) + 1 else maxLen)) as [Hle Hall].
  destruct (Nat.ltb_spec maxLen (String.length (Name f) + 1)).
  - split; [lia|]. constructor; [lia|done].
  - split; [lia|]. constructor; [lia|done].
Qed.

Lemma fold_max_name_attained fields :
  ∀ maxLen,
    fold_left (λ maxLen f,
                 if Nat.ltb maxLen (String.length (Name f) + 1)
                 then String.length (Name f) + 1 else maxLen) fields maxLen = maxLen
    ∨ Exists (λ f, fold_left (λ maxLen f,
                                if Nat.ltb maxLen (String.length (Name f) + 1)
                                then String.length (Name f) + 1 else maxLen)
                     fields maxLen
                   = String.length (Name f) + 1) fields.
Proof.
  induction fields as [|f fields IH]; intros maxLen; [by left|].
  cbn [fold_left].
  destruct (IH (if Nat.ltb maxLen (String.length (Name f) + 1)
                then String.length (Name f) + 1 else maxLen)) as [Hsame|Hlater].
  - rewrite Hsame. destruct (Nat.ltb maxLen (String.length (Name f) + 1)).
    + right. by left.
    + by left.
  - right. by right.
Qed.

(** X15: [getMaxFieldNameLength] returns the largest of the byte lengths of
    the field names, plus one: no field has a longer name, and the result
    is 0 for a structure without fields and otherwise the length plus one
    of the name of one of the fields. *)
Theorem getMaxFieldNameLength_max fields :
  Forall (λ f, String.length (Name f) + 1 ≤ getMaxFieldNameLength fields) fields
  ∧ match fields with
    | [] => getMaxFieldNameLength fields = 0
    | _ :: _ =>
        Exists (λ f, getMaxFieldNameLength fields = String.length (Name f) + 1) fields
    end.
Proof.
  split; [apply fold_max_name_bounds|].
  destruct fields as [|f fields]; [done|].
  destruct (fold_max_name_attained (f :: fields) 0) as [Hzero|Hsome]; [|done].
  pose proof (fold_max_name_bounds (f :: fields) 0) as [_ Hall].
  apply Forall_inv in Hall. unfold getMaxFieldNameLength in *. lia.
Qed.

Lemma runeCount_app s t : runeCount (s ++ t) = runeCount s + runeCount t.
Proof.
  induction s as [|c s IH]; [done|].
  change (runeCount (String c (s ++ t)) = runeCount (String c s) + runeCount t).
  cbn [runeCount]. rewrite IH. lia.
Qed.

Lemma runeCount_spaces n : runeCount (Repeat " " n) = n.
Proof.
  induction n as [|n IH]; [done|].
  change (runeCount (String " " (Repeat " " n)) = S n).
  cbn [runeCount]. by rewrite IH.
Qed.

Lemma runeCount_length s : runeCount s ≤ String.length s.
Proof.
  induction s as [|c s IH]; [done|].
  cbn [runeCount String.length]. destruct (continuesRune c); lia.
Qed.

Lemma padRight_width width s : runeCount s ≤ width → runeCount (padRight width s) = width.
Proof.
  intros Hfits. unfold padRight. rewrite runeCount_app, runeCount_spaces. lia.
Qed.

Lemma label_width fields :
  Forall (λ f, runeCount (padRight (getMaxFieldNameLength fields) (Name f ++ ":"))
               = getMaxFieldNameLength fields) fields.
Proof.
  destruct (fold_max_name_bounds fields 0) as [_ Hall].
  eapply Forall_impl; [exact Hall|]. intros f Hf. cbn beta in Hf.
  apply padRight_width.
  pose proof (runeCount_length (Name f ++ ":")) as Hlen.
  rewrite length_append in Hlen. change (String.length ":") with 1 in Hlen.
  unfold getMaxFieldNameLength. lia.
Qed.

Lemma entries_labelled maxLen indent fields lines :
  Forall (λ f, runeCount (padRight maxLen (Name f ++ ":")) = maxLen) fields →
  Forall2 (λ f line,
             ∃ rest, line = (Repeat "    " indent
                             ++ padRight maxLen (Name f ++ ":") ++ " " ++ rest)%string)
    fields lines →
  Forall2 (λ f line,
             ∃ label rest,
               line = (Repeat "    " indent ++ label ++ " " ++ rest)%string
               ∧ label = padRight maxLen (Name f ++ ":")
               ∧ runeCount label = maxLen)
    fields lines.
Proof.
  intros Hwidth Hlines. revert Hwidth.
  induction Hlines as [|f line fs ls [rest ->] _ IH]; intros Hwidth; [constructor|].
  apply Forall_cons in Hwidth as [Hf Hwidth].
  constructor; [by eexists _, rest|by apply IH].
Qed.

Section FormatterFacts.

Variable Sprint : rtype → value → string.
Variable Anonymous : StructField → bool.

Lemma formatFields_entries format maxLen sticky indent fields :
  ∀ vals lines out,
    formatFields Sprint Anonymous format maxLen sticky indent fields vals lines
    = inl out →
    ∃ new,
      out = lines ++ new
      ∧ Forall2 (λ f line,
                   ∃ rest, line = (Repeat "    " indent
                                   ++ padRight maxLen (Name f ++ ":") ++ " " ++ rest)%string)
          fields new.
Proof.
  induction fields as [|f fields IH]; intros vals lines out Hrun.
  - cbn in Hrun. injection Hrun as <-. exists []. split; [by rewrite app_nil_r|constructor].
  - cbn [formatFields] in Hrun.
    destruct (Type_ f) as [n k|n inner|n elem|n len elem].
    2: { destruct (format (TStruct n inner) (fieldValue f vals)
                     (sticky || negb (Exported f) && negb (Anonymous f))%bool (indent + 1))
           as [body|p]; [|done].
         destruct (IH _ _ _ Hrun) as (new & -> & Hnew).
         eexists (_ :: new). split; [by rewrite <- app_assoc|].
         constructor; [|done].
         exists ("{" ++ newline ++ body ++ newline ++ Repeat "    " indent ++ "}")%string.
         done. }
    all: destruct (sticky || negb (Exported f))%bool; [done|];
      destruct (IH _ _ _ Hrun) as (new & -> & Hnew);
      eexists (_ :: new); (split; [by rewrite <- app_assoc|]);
      constructor; [|done]; by eexists.
Qed.

(** X16: when [formatStruct] returns on a structure, its result is one
    entry per field, in the order of declaration, joined by line feeds;
    the entry of a field starts with four spaces per level of indentation,
    then the name of the field and a colon, padded with spaces to the same
    number of characters (runes) for every field of the structure, namely
    the result of [getMaxFieldNameLength], then a space: the values of the
    fields of one structure start in the same column. *)
Theorem formatStruct_entries name fields v sticky indent s :
  formatStruct Sprint Anonymous (TStruct name fields) v sticky indent = inl s →
  ∃ lines,
    s = Join lines newline
    ∧ Forall2 (λ f line,
                 ∃ label rest,
                   line = (Repeat "    " indent ++ label ++ " " ++ rest)%string
                   ∧ label = padRight (getMaxFieldNameLength fields) (Name f ++ ":")
                   ∧ runeCount label = getMaxFieldNameLength fields)
        fields lines.
Proof.
  intros Hrun. cbn [formatStruct] in Hrun.
  destruct (formatFields Sprint Anonymous (formatStruct Sprint Anonymous)
              (getMaxFieldNameLength fields) sticky indent fields (fieldsOf v) [])
    as [lines|p] eqn:Hloop; [|done].
  injection Hrun as <-. exists lines. split; [done|].
  destruct (formatFields_entries _ _ _ _ _ _ _ _ Hloop) as (new & -> & Hnew).
  cbn [app]. apply entries_labelled; [apply label_width|done].
Qed.

Lemma formatFields_printable maxLen fields :
  Forall (λ f, ∀ v sticky indent,
            if printable Anonymous sticky (Type_ f)
            then ∃ s, formatStruct Sprint Anonymous (Type_ f) v sticky indent = inl s
            else formatStruct Sprint Anonymous (Type_ f) v sticky indent
                 = inr interfaceOfUnexported) fields →
  ∀ sticky indent vals lines,
    if printable Anonymous sticky (TStruct "" fields)
    then ∃ out, formatFields Sprint Anonymous (formatStruct Sprint Anonymous)
                  maxLen sticky indent fields vals lines = inl out
    else formatFields Sprint Anonymous (formatStruct Sprint Anonymous)
           maxLen sticky indent fields vals lines = inr interfaceOfUnexported.
Proof.
  induction 1 as [|f fields Hf _ IH]; intros sticky indent vals lines; [cbn; eauto|].
  cbn [printable forallb formatFields].
  specialize (Hf (fieldValue f vals)
                (sticky || negb (Exported f) && negb (Anonymous f))%bool (indent + 1)).
  specialize (IH sticky indent (tl vals)). cbn [printable] in IH.
  destruct (Type_ f) as [n k|n inner|n elem|n len elem].
  2: { destruct (printable Anonymous
                   (sticky || negb (Exported f) && negb (Anonymous f))%bool
                   (TStruct n inner)).
       - destruct Hf as [body ->]. cbn [andb]. apply IH.
       - by rewrite Hf. }
  all: destruct (sticky || negb (Exported f))%bool; cbn [negb andb]; [done|apply IH].
Qed.

Lemma formatStruct_printable t :
  ∀ v sticky indent,
    if printable Anonymous sticky t
    then ∃ s, formatStruct Sprint Anonymous t v sticky indent = inl s
    else formatStruct Sprint Anonymous t v sticky indent = inr interfaceOfUnexported.
Proof.
  induction t as [n k|n fields IH|n el _|n l el _] using rtype_nested_ind;
    intros v sticky indent; [destruct sticky; cbn; eauto| |destruct sticky; cbn; eauto..].
  pose proof (formatFields_printable (getMaxFieldNameLength fields) fields IH
                sticky indent (fieldsOf v) []) as Hloop.
  cbn [printable formatStruct] in *.
  destruct (forallb _ fields).
  - destruct Hloop as [out ->]. eauto.
  - by rewrite Hloop.
Qed.

(** X17: [FormatString] panics on the nil interface and on a nil pointer
    (no value to take the interface of); on a value or a pointer to a value
    it returns, between braces, what [formatStruct] returns, exactly when
    every field that is not a structure, nested structures included, is
    exported and is not reached through an unexported field that is not
    embedded; otherwise it panics on the first such field (the interface of
    a value obtained through an unexported field). *)
Theorem FormatString_returns c :
  match c with
  | NilInterface | PointerTo _ None =>
      FormatString Sprint Anonymous c = inr interfaceOfZeroValue
  | ByValue t v | PointerTo t (Some v) =>
      if printable Anonymous false t
      then ∃ body,
             formatStruct Sprint Anonymous t v false 1 = inl body
             ∧ FormatString Sprint Anonymous c
               = inl ("{" ++ newline ++ body ++ newline ++ "}")%string
      else FormatString Sprint Anonymous c = inr interfaceOfUnexported
  end.
Proof.
  destruct c as [|t v|t [v|]]; [done| | |done].
  - pose proof (formatStruct_printable t v false 1) as Hbody. unfold FormatString.
    destruct (printable Anonymous false t).
    + destruct Hbody as [body ->]. eauto.
    + by rewrite Hbody.
  - pose proof (formatStruct_printable t v false 1) as Hbody. unfold FormatString.
    destruct (printable Anonymous false t).
    + destruct Hbody as [body ->]. eauto.
    + by rewrite Hbody.
Qed.

End FormatterFacts.

Lemma formatStruct_entries_witness :
  ∃ lines,
    ("    Host:  a" ++ newline ++ "    Host2: b")%string = Join lines newline
    ∧ Forall2 (λ f line,
                 ∃ label rest,
                   line = (Repeat "    " 1 ++ label ++ " " ++ rest)%string
                   ∧ label = padRight (getMaxFieldNameLength
                                         [mkField "Host" "HOST" true tString;
                                          mkField "Host2" "HOST" true tString])
                               (Name f ++ ":")
                   ∧ runeCount label
                     = getMaxFieldNameLength
                         [mkField "Host" "HOST" true tString;
                          mkField "Host2" "HOST" true tString])
        [mkField "Host" "HOST" true tString; mkField "Host2" "HOST" true tString]
        lines.
Proof.
  assert (formatStruct (λ _ v, match v with VStr s => s | _ => "" end) (λ _, false)
            (TStruct "struct"
               [mkField "Host" "HOST" true tString; mkField "Host2" "HOST" true tString])
            (VStruct [VStr "a"; VStr "b"]) false 1
          = inl ("    Host:  a" ++ newline ++ "    Host2: b")%string) as Hrun
    by (vm_compute; reflexivity).
  exact (formatStruct_entries _ _ _ _ _ _ _ _ Hrun).
Defined.
